(** * Aker SSH gateway: a shallow embedding of the session proxy engine

    The development follows the Python sources
    [IdPFactory.py], [aker.py], [session.py] and [SSHClient.py].

    - Python 2 [str] values (commands, chunks read from the channel or from
      standard input) are [string]: a sequence of 8-bit characters.
    - Python exceptions are the type [exn]; a call that may raise returns a
      [result], and code that also acts on the outside world lives in the
      monad [M], which threads a [world] and records every external call in
      a trace.
    - Dictionaries ([os.environ], the table of importable modules) are
      [gmap]s with string keys. *)

From Stdlib Require Import ZArith String Ascii List Bool Lia.
From stdpp Require Import base option list gmap strings.

Local Open Scope Z_scope.
Local Open Scope string_scope.
Local Open Scope list_scope.

(** ** Exceptions and results *)

Inductive exn : Type :=
| ImportError                  (* importlib: no module of that name *)
| AttributeError               (* getattr on a missing attribute *)
| KeyError                     (* os.environ[...] on a missing key *)
| ValueError                   (* int() on a malformed literal *)
| AssertionError               (* a failed assert statement *)
| AuthenticationException      (* paramiko.ssh_exception.AuthenticationException *)
| SSHException                 (* any other paramiko failure *)
| SocketTimeout                (* socket.timeout *)
| SocketError                  (* socket.error other than a timeout *)
| OSError (errno : Z)          (* OSError raised by os.read / os.write *)
| InvalidPrivateKey            (* Exception("Core: Invalid Private Key") *)
| ProviderNotFound             (* named by the specification only *)
| ProviderLoadError            (* named by the specification only *)
| RuntimeError (msg : string). (* any other exception *)

Definition EAGAIN : Z := 11.

Inductive result (A : Type) : Type :=
| Ok (a : A)
| Raise (e : exn).
Arguments Ok {A} a.
Arguments Raise {A} e.

(** ** Python string primitives used by [main] *)

Module Py.

(** [str.strip()] removes the ASCII white space characters. *)
Definition is_space (c : ascii) : bool :=
  match N_of_ascii c with
  | 9%N | 10%N | 11%N | 12%N | 13%N | 32%N => true
  | _ => false
  end.

Definition is_empty (s : string) : bool :=
  match s with EmptyString => true | String _ _ => false end.

Fixpoint lstrip (s : string) : string :=
  match s with
  | EmptyString => EmptyString
  | String c s' => if is_space c then lstrip s' else s
  end.

Fixpoint rstrip (s : string) : string :=
  match s with
  | EmptyString => EmptyString
  | String c s' =>
      let r := rstrip s' in
      if is_empty r && is_space c then EmptyString else String c r
  end.

Definition strip (s : string) : string := rstrip (lstrip s).

(** [s.split(sep)] for a one-character separator: every occurrence of the
    separator cuts, so consecutive separators give empty terms and the
    empty string gives one empty term. *)
Fixpoint split (sep : ascii) (s : string) : list string :=
  match s with
  | EmptyString => [EmptyString]
  | String c s' =>
      if Ascii.eqb c sep then EmptyString :: split sep s'
      else match split sep s' with
           | t :: ts => String c t :: ts
           | [] => [String c EmptyString]
           end
  end.

(** [s.startswith(p)]. *)
Fixpoint startswith (p s : string) : bool :=
  match p, s with
  | EmptyString, _ => true
  | String a p', String b s' => Ascii.eqb a b && startswith p' s'
  | String _ _, EmptyString => false
  end.

(** [sub in s]. *)
Fixpoint contains (sub s : string) : bool :=
  startswith sub s ||
  match s with
  | EmptyString => false
  | String _ s' => contains sub s'
  end.

(** [s[n:]]. *)
Fixpoint slice_from (n : nat) (s : string) : string :=
  match n, s with
  | O, _ => s
  | S n', String _ s' => slice_from n' s'
  | S _, EmptyString => EmptyString
  end.

Definition digit (c : ascii) : option Z :=
  let n := Z.of_N (N_of_ascii c) in
  if ((48 <=? n) && (n <=? 57))%Z then Some (n - 48) else None.

Fixpoint digits (s : string) (acc : Z) : option Z :=
  match s with
  | EmptyString => Some acc
  | String c s' =>
      match digit c with
      | Some d => digits s' (10 * acc + d)
      | None => None
      end
  end.

(** [int(s)] on a string, after the documentation of the built-in:
    surrounding white space is dropped, an optional sign precedes one or
    more decimal digits, anything else raises [ValueError]. *)
Definition int (s : string) : result Z :=
  let body := strip s in
  let '(sign, ds) :=
    match body with
    | String "-"%char r => (-1, r)
    | String "+"%char r => (1, r)
    | _ => (1, body)
    end in
  if is_empty ds then Raise ValueError
  else match digits ds 0 with
       | Some v => Ok (sign * v)
       | None => Raise ValueError
       end.

End Py.

(** ** IdPFactory.py *)

Module IdPFactory.

(** A provider class, as an opaque name. *)
Definition idp_class : Type := string.

(** What [importlib.import_module] can find: module name to the
    attributes of that module. *)
Definition import_module (modules : gmap string (gmap string idp_class))
    (name : string) : result (gmap string idp_class) :=
  match modules !! name with
  | Some m => Ok m
  | None => Raise ImportError
  end.

Definition getattr (m : gmap string idp_class) (attr : string)
    : result idp_class :=
  match m !! attr with
  | Some c => Ok c
  | None => Raise AttributeError
  end.

(** [IdPFactory.getIdP(choice)]: the class is returned as it is found,
    nothing is constructed here. *)
Definition getIdP (modules : gmap string (gmap string idp_class))
    (choice : string) : result idp_class :=
  let idp := "idp." +:+ choice in
  match import_module modules idp with
  | Raise e => Raise e
  | Ok idp_module => getattr idp_module choice
  end.

End IdPFactory.

(** ** The outside world

    Everything the gateway does to its surroundings is a call of type [op];
    the [world] keeps the calls in the order they were made, together with
    the three pieces of state the properties below speak about. *)

(** A key object ([paramiko.PKey]), named by its fingerprint. *)
Definition pkey : Type := string.

(** An attached observer object, named by its identity. *)
Definition sniffer : Type := nat.

(** The methods the gateway calls on an observer. *)
Inductive hook : Type :=
| set_logs
| stdin_filter (data : string)
| channel_filter (data : string)
| sigwinch_hook (columns lines : Z)      (* sniffer.sigwinch(columns, lines) *)
| stop.

(** The termios attributes of standard input, reduced to the flags that
    [tty.setraw] and [tty.setcbreak] clear; [others] stands for the rest
    of the attribute list, which neither call touches here. *)
Record termios_attr : Type := {
  echo : bool;
  icanon : bool;
  isig : bool;
  opost : bool;
  others : Z
}.

Inductive op : Type :=
(* credentials *)
| AgentGetKeys                           (* paramiko.Agent().get_keys() *)
| ReadKeyFile                            (* RSAKey.from_private_key_file *)
| Getpass                                (* getpass.getpass() *)
(* connection *)
| Connect (ip : string) (port : Z)       (* socket connect *)
| GetTransport                           (* Transport, keepalive, start_client *)
| AuthPublickey (user : string) (key : pkey)
| AuthPassword (user : string) (secret : string)
| OpenSession
| GetPty (columns lines : Z)
| SignalSIGWINCH                         (* signal.signal(SIGWINCH, handler) *)
| InvokeShell
| ExecCommand (command : string)
| ResizePty (columns lines : Z)
(* multiplexing loop *)
| Select
| ChannelRecv
| StdoutWrite (x : string)
| StdinRead
| ChannelSend (buf : string)
(* terminal *)
| Tcgetattr
| SetRaw
| SetCbreak
| Tcsetattr (attr : termios_attr)
(* teardown *)
| ChannelClose
| TransportClose
| SocketClose
| SessionEndCallback                     (* aker.session_end_callback(session) *)
(* observers and the host picker *)
| CallHook (s : sniffer) (h : hook)
| BuildTui
| TuiPause
| TuiStop
| TuiSearchClear.
Arguments CallHook s%_nat_scope h.

Record world : Type := {
  trace : list op;            (* every external call so far, oldest first *)
  tty : termios_attr;         (* terminal mode of standard input *)
  stdout : string;            (* bytes accepted by os.write on standard output *)
  pty : option (Z * Z);       (* width and height of the remote pseudo-terminal *)
  winch_handler : bool        (* the SIGWINCH handler is installed *)
}.

(** What the surroundings answer. [raises tr o] tells whether the call [o],
    made after the calls [tr], raises; the other fields are the values the
    gateway reads. *)
Record env : Type := {
  raises : list op -> op -> option exn;
  agent_keys : list pkey;
  key_file : result pkey;
  typed_secret : string;
  environ : gmap string string
}.

(** What the kernel keeps about the window of the local terminal: the first
    two fields of its [struct winsize], two unsigned shorts, the number of
    rows first and the number of columns second. *)
Record winsize : Type := {
  ws_row : Z;
  ws_col : Z
}.

(** One turn of the multiplexing loop as the surroundings drive it: the
    resize signals that arrive while [select] sleeps (each with what the
    TIOCGWINSZ request on standard output answers when the handler runs),
    what [select] reports ready, and what the reads and the write of that
    turn return. *)
Record tick : Type := {
  winch : list (result winsize);
  channel_ready : bool;       (* self.channel in r *)
  recv : result string;       (* self.channel.recv(10240) *)
  write : result nat;         (* os.write(stdout, x): bytes written *)
  stdin_ready : bool;         (* sys.stdin in r *)
  read : result string        (* os.read(stdin, 4096) *)
}.

(** ** The monad of gateway code

    A computation ends by returning, by raising, or it is still asleep in
    [select] because the surroundings have produced nothing more: [Wait].
    Nothing runs after [Wait], not even a [finally] block. *)

Inductive outcome (A : Type) : Type :=
| Ret (a : A)
| Exc (e : exn)
| Wait.
Arguments Ret {A} a.
Arguments Exc {A} e.
Arguments Wait {A}.

Definition M (A : Type) : Type := world -> outcome A * world.

#[global] Instance M_ret : MRet M := fun A a w => (Ret a, w).

#[global] Instance M_bind : MBind M := fun A B f m w =>
  match m w with
  | (Ret a, w') => f a w'
  | (Exc e, w') => (Exc e, w')
  | (Wait, w') => (Wait, w')
  end.

Definition raise {A} (e : exn) : M A := fun w => (Exc e, w).

Definition wait {A} : M A := fun w => (Wait, w).

Definition of_result {A} (r : result A) : M A :=
  match r with
  | Ok a => mret a
  | Raise e => raise e
  end.

(** [try: m except Exception as e: h e]; a handler re-raises what it does
    not catch. *)
Definition try_except {A} (m : M A) (h : exn -> M A) : M A := fun w =>
  match m w with
  | (Exc e, w') => h e w'
  | other => other
  end.

(** [try: m finally: f]. An exception of [f] replaces the pending one. *)
Definition try_finally {A} (m : M A) (f : M unit) : M A := fun w =>
  match m w with
  | (Wait, w') => (Wait, w')
  | (r, w') =>
      match f w' with
      | (Ret _, w'') => (r, w'')
      | (Exc e, w'') => (Exc e, w'')
      | (Wait, w'') => (Wait, w'')
      end
  end.

Definition record (o : op) (w : world) : world :=
  {| trace := trace w ++ [o]; tty := tty w; stdout := stdout w;
     pty := pty w; winch_handler := winch_handler w |}.

Definition record_all (ops : list op) (w : world) : world :=
  {| trace := trace w ++ ops; tty := tty w; stdout := stdout w;
     pty := pty w; winch_handler := winch_handler w |}.

(** A call with no result of interest: recorded, then it returns or raises
    as the surroundings decide. *)
Definition call (E : env) (o : op) : M unit := fun w =>
  match raises E (trace w) o with
  | None => (Ret tt, record o w)
  | Some e => (Exc e, record o w)
  end.

(** A call whose result the turn of the loop supplies. *)
Definition answer {A} (o : op) (r : result A) : M A := fun w =>
  of_result r (record o w).

Definition set_tty (a : termios_attr) : M unit := fun w =>
  (Ret tt, {| trace := trace w; tty := a; stdout := stdout w;
              pty := pty w; winch_handler := winch_handler w |}).

Definition set_pty (columns lines : Z) : M unit := fun w =>
  (Ret tt, {| trace := trace w; tty := tty w; stdout := stdout w;
              pty := Some (columns, lines); winch_handler := winch_handler w |}).

Definition set_winch_handler : M unit := fun w =>
  (Ret tt, {| trace := trace w; tty := tty w; stdout := stdout w;
              pty := pty w; winch_handler := true |}).

Definition winch_installed : M bool := fun w => (Ret (winch_handler w), w).

Definition emit (x : string) : M unit := fun w =>
  (Ret tt, {| trace := trace w; tty := tty w; stdout := stdout w +:+ x;
              pty := pty w; winch_handler := winch_handler w |}).

(** [for x in l: f x]. *)
Fixpoint for_each {A} (l : list A) (f : A -> M unit) : M unit :=
  match l with
  | [] => mret tt
  | x :: l' => f x;; for_each l' f
  end.

(** The first [n] characters of a string. *)
Fixpoint string_take (n : nat) (s : string) : string :=
  match n, s with
  | S n', String c s' => String c (string_take n' s')
  | _, _ => EmptyString
  end.

(** ** Terminal calls *)

Definition tcgetattr : M termios_attr := fun w => (Ret (tty w), record Tcgetattr w).

Definition tcsetattr (a : termios_attr) : M unit := fun w =>
  set_tty a (record (Tcsetattr a) w).

Definition raw (a : termios_attr) : termios_attr :=
  {| echo := false; icanon := false; isig := false; opost := false;
     others := others a |}.

Definition cbreak (a : termios_attr) : termios_attr :=
  {| echo := false; icanon := false; isig := isig a; opost := opost a;
     others := others a |}.

Definition setraw : M unit := fun w => set_tty (raw (tty w)) (record SetRaw w).

Definition setcbreak : M unit := fun w =>
  set_tty (cbreak (tty w)) (record SetCbreak w).

(** ** session.py: the base class *)

Module Session.

(** [close_session]: nothing but the completion callback of the core. *)
Definition close_session (E : env) : M unit := call E SessionEndCallback.

End Session.

(** ** SSHClient.py *)

Module Client.

Definition attach_sniffer (sniffers : list sniffer) (s : sniffer)
    : list sniffer := sniffers ++ [s].

Definition stop_sniffer (E : env) (sniffers : list sniffer) : M unit :=
  for_each sniffers (fun s => call E (CallHook s stop)).

(** [get_console_dimensions]: a buffer of two unsigned shorts (format
    ['HH']) is handed to the TIOCGWINSZ request, which fills it with the
    head of [struct winsize], and is unpacked as [columns, lines] in that
    order: [columns] receives [ws_row] and [lines] receives [ws_col]. The
    request may raise. *)
Definition get_console_dimensions (reply : result winsize) : result (Z * Z) :=
  match reply with
  | Ok result =>
      let '(columns, lines) := (ws_row result, ws_col result) in
      Ok (columns, lines)
  | Raise e => Raise e
  end.

End Client.

Module SSHClient.

(** The handler of SIGWINCH; [reply] is what the TIOCGWINSZ request answers
    when the handler runs. [resize_pty] takes the width first and the
    height second. *)
Definition sigwinch (E : env) (sniffers : list sniffer)
    (reply : result winsize) : M unit :=
  size ← of_result (Client.get_console_dimensions reply);
  let '(columns, lines) := size in
  call E (ResizePty columns lines);;
  set_pty columns lines;;
  for_each sniffers (fun s => call E (CallHook s (sigwinch_hook columns lines))).

(** How one turn of the [while True] body ends. *)
Inductive flow : Type :=
| Break          (* leave the loop *)
| Continue       (* back to the head of the loop *)
| Next.          (* go on with the statement that follows *)

(** The [if self.channel in r] block. *)
Definition on_channel (E : env) (sniffers : list sniffer) (t : tick)
    : M flow :=
  try_except
    (x ← answer ChannelRecv (recv t);
     if Nat.eqb (String.length x) 0 then mret Break
     else
       for_each sniffers (fun s => call E (CallHook s (channel_filter x)));;
       try_except
         (nbytes ← answer (StdoutWrite x) (write t);
          emit (string_take nbytes x);;
          mret Next)
         (fun msg =>
            match msg with
            | OSError errno =>
                if Z.eqb errno EAGAIN then mret Continue else mret Next
            | _ => raise msg
            end))
    (fun e =>
       match e with
       | SocketTimeout => mret Next
       | _ => raise e
       end).

(** The [if sys.stdin in r] block. *)
Definition on_stdin (E : env) (sniffers : list sniffer) (t : tick)
    : M unit :=
  buf ← answer StdinRead (read t);
  for_each sniffers (fun s => call E (CallHook s (stdin_filter buf)));;
  call E (ChannelSend buf).

(** One turn: [select] sleeps, the resize handler runs for every signal
    that arrives meanwhile, then the ready descriptors are served. *)
Definition turn (E : env) (sniffers : list sniffer) (t : tick) : M flow :=
  installed ← winch_installed;
  (if installed : bool
   then for_each (winch t) (sigwinch E sniffers)
   else mret tt);;
  call E Select;;
  f ← (if channel_ready t then on_channel E sniffers t else mret Next);
  match f with
  | Next =>
      (if stdin_ready t then on_stdin E sniffers t else mret tt);;
      mret Continue
  | _ => mret f
  end.

(** [while True]: with no turn left the loop is asleep in [select]. *)
Fixpoint multiplex (E : env) (sniffers : list sniffer) (script : list tick)
    : M unit :=
  match script with
  | [] => wait
  | t :: script' =>
      f ← turn E sniffers t;
      match f with
      | Break => mret tt
      | _ => multiplex E sniffers script'
      end
  end.

Definition interactive_shell (E : env) (sniffers : list sniffer)
    (script : list tick) : M unit :=
  oldtty ← tcgetattr;
  try_finally
    (setraw;; setcbreak;; multiplex E sniffers script)
    (tcsetattr oldtty).

Definition run_command (E : env) (sniffers : list sniffer)
    (script : list tick) : M unit :=
  command ← of_result (match environ E !! "SSH_ORIGINAL_COMMAND" with
                       | Some c => Ok c
                       | None => Raise KeyError
                       end);
  for_each sniffers (fun s => call E (CallHook s (stdin_filter command)));;
  interactive_shell E sniffers script.

Definition _set_sniffer_logs (E : env) (sniffers : list sniffer) : M unit :=
  for_each sniffers (fun s =>
    try_except (call E (CallHook s set_logs))
      (fun e => match e with
                | AttributeError => mret tt
                | _ => raise e
                end)).

(** The statements of [_start_session] up to the end of the multiplexing
    loop are grouped; the four closing statements follow. *)
Definition _start_session (E : env) (sniffers : list sniffer)
    (size : Z * Z) (script : list tick) : M unit :=
  (call E OpenSession;;
   let '(columns, lines) := size in
   call E (GetPty columns lines);;
   set_pty columns lines;;
   try_except (call E SignalSIGWINCH;; set_winch_handler) (fun _ => mret tt);;
   _set_sniffer_logs E sniffers;;
   match environ E !! "SSH_ORIGINAL_COMMAND" with
   | None =>
       call E InvokeShell;;
       interactive_shell E sniffers script
   | Some command =>
       call E (ExecCommand command);;
       run_command E sniffers script
   end);;
  call E ChannelClose;;
  Session.close_session E;;
  call E TransportClose;;
  call E SocketClose.

(** [auth_secret] is a password when it is a string, a key otherwise. *)
Inductive secret : Type :=
| Password (s : string)
| Key (k : pkey).

(** [get_transport] runs before the [try]; in the [finally] block the test
    [if transport] holds for every transport object. *)
Definition start_session (E : env) (sniffers : list sniffer)
    (size : Z * Z) (user : string) (auth_secret : secret)
    (script : list tick) : M unit :=
  call E GetTransport;;
  try_finally
    ((match auth_secret with
      | Password s => call E (AuthPassword user s)
      | Key k =>
          try_except (call E (AuthPublickey user k))
            (fun e =>
               match e with
               | AuthenticationException =>
                   call E Getpass;;
                   call E (AuthPassword user (typed_secret E))
               | _ => raise e
               end)
      end);;
     _start_session E sniffers size script)
    (Session.close_session E;;
     call E TransportClose;;
     call E SocketClose).

End SSHClient.

(** ** aker.py: credentials *)

Module User.

Definition get_priv_key (E : env) : M SSHClient.secret :=
  call E AgentGetKeys;;
  match agent_keys E with
  | k :: _ => mret (SSHClient.Key k)             (* return keys[0] *)
  | [] =>
      privkey ← try_except (answer ReadKeyFile (key_file E))
                  (fun _ => raise InvalidPrivateKey);
      mret (SSHClient.Key privkey)
  end.

End User.

(** ** session.py: the SSH session *)

Module SSHSession.

Definition start_session (E : env) (sniffers : list sniffer)
    (size : Z * Z) (host_user : string) (script : list tick) : M unit :=
  auth_secret ← User.get_priv_key E;
  try_except
    (SSHClient.start_session E sniffers size host_user auth_secret script)
    (fun _ => mret tt).

End SSHSession.

(** ** aker.py: the dispatch at the head of [main] *)

Module Aker.

Definition SSH_ORIGINAL_COMMAND : string := "SSH_ORIGINAL_COMMAND".

(** What [main] goes on to do once the command is read. *)
Inductive mode : Type :=
| Proxy (host : string) (host_port : Z)  (* SSHSession(aker, host, uuid, port) *)
| Interactive.                           (* aker.build_tui() *)

(** The [for term in command.split(' ')] loop: [host] and [port] are
    overwritten by every matching term, so the last one stays. [port] is
    the integer 22 until a term replaces it by a string. *)
Fixpoint scan_terms (terms : list string) (host : option string)
    (port : Z + string) : option string * (Z + string) :=
  match terms with
  | [] => (host, port)
  | term :: rest =>
      let host := if Py.startswith "host=" term
                  then Some (Py.slice_from 5 term) else host in
      let port := if Py.startswith "port=" term
                  then inr (Py.slice_from 5 term) else port in
      scan_terms rest host port
  end.

(** [Session.__init__]: [self.host_port = int(port)]. *)
Definition host_port_of (port : Z + string) : result Z :=
  match port with
  | inl n => Ok n
  | inr s => Py.int s
  end.

(** The head of [main]: which way the original command sends the
    gateway, and to which target. *)
Definition dispatch (environ : gmap string string) : result mode :=
  let command := Py.strip (default "" (environ !! SSH_ORIGINAL_COMMAND)) in
  let is_proxy := Py.contains "host=" command in
  if is_proxy then
    let '(host, port) := scan_terms (Py.split " "%char command) None (inl 22) in
    match host with
    | None => Raise AssertionError          (* assert host is not None *)
    | Some host =>
        match host_port_of port with
        | Ok p => Ok (Proxy host p)
        | Raise e => Raise e
        end
    end
  else Ok Interactive.

(** The one observer that the core attaches to a session. *)
Definition the_sniffer : sniffer := 0%nat.

(** [main], from the point where the core object exists: the ticket
    renewal and the construction of [Aker()] come before and are left out;
    [screen_size] and [posix_user] are what the environment and
    [getpass.getuser()] give. *)
Definition main (E : env) (screen_size : Z * Z) (posix_user : string)
    (script : list tick) : M unit :=
  m ← of_result (dispatch (environ E));
  match m with
  | Proxy host port =>
      let sniffers := Client.attach_sniffer [] the_sniffer in
      call E (Connect host port);;
      try_finally
        (SSHSession.start_session E sniffers screen_size posix_user script)
        (Client.stop_sniffer E sniffers)
  | Interactive => call E BuildTui
  end.

(** [Aker.init_connection], called by the host picker with the chosen
    host. *)
Definition init_connection (E : env) (screen_size : Z * Z)
    (posix_user : string) (host : string) (script : list tick) : M unit :=
  call E TuiPause;;
  let sniffers := Client.attach_sniffer [] the_sniffer in
  call E (Connect host 22);;
  try_finally
    (SSHSession.start_session E sniffers screen_size posix_user script)
    (Client.stop_sniffer E sniffers;;
     call E TuiStop;;
     call E TuiSearchClear).

End Aker.


(** ** Initial worlds and quiet surroundings, for running the model *)

Definition cooked : termios_attr :=
  {| echo := true; icanon := true; isig := true; opost := true; others := 0 |}.

Definition world0 : world :=
  {| trace := []; tty := cooked; stdout := ""; pty := None;
     winch_handler := false |}.

(** Surroundings in which the calls listed by [bad] raise and every other
    call returns. *)
Definition env_of (bad : op -> option exn) (keys : list pkey)
    (file : result pkey) (command : option string) : env :=
  {| raises := fun _ o => bad o;
     agent_keys := keys;
     key_file := file;
     typed_secret := "secret";
     environ := match command with
                | Some c => {[ Aker.SSH_ORIGINAL_COMMAND := c ]}
                | None => ∅
                end |}.

Definition quiet : op -> option exn := fun _ => None.

(** A turn in which the channel delivers [x] and the write returns [wr]. *)
Definition chunk (x : string) (wr : result nat) : tick :=
  {| winch := []; channel_ready := true; recv := Ok x; write := wr;
     stdin_ready := false; read := Ok "" |}.

(** A turn in which standard input delivers [buf]. *)
Definition typed (buf : string) : tick :=
  {| winch := []; channel_ready := false; recv := Ok ""; write := Ok 0%nat;
     stdin_ready := true; read := Ok buf |}.

(** A turn in which only resize signals arrive. *)
Definition resized (replies : list (result winsize)) : tick :=
  {| winch := replies; channel_ready := false; recv := Ok ""; write := Ok 0%nat;
     stdin_ready := false; read := Ok "" |}.

(** ** Reading traces *)

#[global] Instance hook_eq_dec : EqDecision hook.
Proof. solve_decision. Defined.

#[global] Instance termios_attr_eq_dec : EqDecision termios_attr.
Proof. solve_decision. Defined.

#[global] Instance op_eq_dec : EqDecision op.
Proof. solve_decision. Defined.

(** The calls made on the observer [s], oldest first. *)
Fixpoint calls_to (s : sniffer) (tr : list op) : list hook :=
  match tr with
  | [] => []
  | CallHook s' h :: tr' =>
      if Nat.eqb s' s then h :: calls_to s tr' else calls_to s tr'
  | _ :: tr' => calls_to s tr'
  end.

(** The sizes given to the remote pseudo-terminal, oldest first. *)
Fixpoint resizes (tr : list op) : list (Z * Z) :=
  match tr with
  | [] => []
  | ResizePty columns lines :: tr' => (columns, lines) :: resizes tr'
  | _ :: tr' => resizes tr'
  end.

Definition is_restore (o : op) : bool :=
  match o with Tcsetattr _ => true | _ => false end.

Definition is_credential (o : op) : bool :=
  match o with
  | AgentGetKeys | ReadKeyFile | AuthPublickey _ _ | Getpass
  | AuthPassword _ _ => true
  | _ => false
  end.

Definition is_teardown (o : op) : bool :=
  match o with
  | ChannelClose | TransportClose | SocketClose | SessionEndCallback => true
  | _ => false
  end.

(** The calls of a trace that satisfy [p], in order. *)
Definition select_ops (p : op -> bool) (tr : list op) : list op :=
  List.filter p tr.

(** The position of the first call [o] in a trace. *)
Fixpoint index_of (o : op) (tr : list op) : option nat :=
  match tr with
  | [] => None
  | o' :: tr' => if decide (o' = o) then Some 0%nat else S <$> index_of o tr'
  end.

(** Both calls occur, and the first [a] comes before the first [b]. *)
Definition precedes (a b : op) (tr : list op) : bool :=
  match index_of a tr, index_of b tr with
  | Some i, Some j => Nat.ltb i j
  | _, _ => false
  end.

(** How many times the observer [s] is attached. *)
Definition attachments (s : sniffer) (sniffers : list sniffer) : nat :=
  length (List.filter (fun s' => Nat.eqb s' s) sniffers).

(** The resize call an observer receives for a notification. *)
Definition resize_call (size : Z * Z) : hook :=
  sigwinch_hook (fst size) (snd size).

(** The calls the resize handler makes for one notification. *)
Definition resize_trace (sniffers : list sniffer) (size : Z * Z) : list op :=
  ResizePty (fst size) (snd size) ::
  map (fun s => CallHook s (resize_call size)) sniffers.

(** What [get_console_dimensions] makes of a window size. *)
Definition dimensions_read (terminal : winsize) : Z * Z :=
  (ws_row terminal, ws_col terminal).

(** The calls that size the remote pseudo-terminal. *)
Definition is_sizing (o : op) : bool :=
  match o with GetPty _ _ | ResizePty _ _ => true | _ => false end.

(** Neither the remote resize nor a resize hook ever raises. *)
Definition resize_never_raises (E : env) : Prop :=
  (forall tr columns lines, raises E tr (ResizePty columns lines) = None) /\
  (forall tr s columns lines,
     raises E tr (CallHook s (sigwinch_hook columns lines)) = None).

(** The calls of the multiplexing loop, resize handler included. *)
Definition is_loop_op (o : op) : bool :=
  match o with
  | ResizePty _ _ | CallHook _ _ | Select | ChannelRecv | StdoutWrite _
  | StdinRead | ChannelSend _ => true
  | _ => false
  end.

(** The calls of [_start_session] up to the end of the multiplexing loop. *)
Definition is_session_op (o : op) : bool :=
  is_loop_op o ||
  match o with
  | OpenSession | GetPty _ _ | SignalSIGWINCH | InvokeShell | ExecCommand _
  | Tcgetattr | SetRaw | SetCbreak | Tcsetattr _ => true
  | _ => false
  end.

(** The world relation "the trace grew by calls that satisfy [P]". *)
Definition grows_by (P : op -> Prop) (w w' : world) : Prop :=
  exists tr, trace w' = trace w ++ tr /\ Forall P tr.

Definition loop_ops : op -> Prop := fun o => is_loop_op o = true.

(** The world relation "standard output received nothing". *)
Definition same_stdout (w w' : world) : Prop := stdout w' = stdout w.

(** A computation keeps a relation between the world it starts in and the
    world it leaves. *)
Definition keeps (Q : world -> world -> Prop) {A} (m : M A) : Prop :=
  forall w r w', m w = (r, w') -> Q w w'.

(** ** Reading scripts *)

(** What a turn of the loop reads from the channel. *)
Inductive reading : Type :=
| NoChunk                                  (* not ready, or the read raised *)
| Chunk (x : string) (wr : result nat)     (* a chunk, and how its write ends *)
| Closed.                                  (* a zero-length read *)

Definition reading_of (t : tick) : reading :=
  if channel_ready t then
    match recv t with
    | Ok x => if Nat.eqb (String.length x) 0 then Closed else Chunk x (write t)
    | Raise _ => NoChunk
    end
  else NoChunk.

(** The chunks read from the channel before the first zero-length read,
    each with the result of its write to standard output. *)
Fixpoint chunks_read (script : list tick) : list (string * result nat) :=
  match script with
  | [] => []
  | t :: script' =>
      match reading_of t with
      | Closed => []
      | NoChunk => chunks_read script'
      | Chunk x wr => (x, wr) :: chunks_read script'
      end
  end.

(** What standard output took of a chunk. *)
Definition accepted (c : string * result nat) : string :=
  match c with
  | (x, Ok nbytes) => string_take nbytes x
  | (_, Raise _) => ""
  end.

Definition complete (c : string * result nat) : Prop :=
  match c with
  | (x, Ok nbytes) => (String.length x <= nbytes)%nat
  | (_, Raise _) => False
  end.

Fixpoint string_concat (l : list string) : string :=
  match l with
  | [] => ""
  | x :: l' => x +:+ string_concat l'
  end.

(** ** Reading a session: the parts of [_start_session] and of
    [SSHClient.start_session], named *)

(** [_start_session] up to the end of the multiplexing loop. *)
Definition session_body (E : env) (sniffers : list sniffer) (size : Z * Z)
    (script : list tick) : M unit :=
  call E OpenSession;;
  let '(columns, lines) := size in
  call E (GetPty columns lines);;
  set_pty columns lines;;
  try_except (call E SignalSIGWINCH;; set_winch_handler) (fun _ => mret tt);;
  SSHClient._set_sniffer_logs E sniffers;;
  match environ E !! "SSH_ORIGINAL_COMMAND" with
  | None =>
      call E InvokeShell;;
      SSHClient.interactive_shell E sniffers script
  | Some command =>
      call E (ExecCommand command);;
      SSHClient.run_command E sniffers script
  end.

(** The four closing statements of [_start_session]. *)
Definition closing (E : env) : M unit :=
  call E ChannelClose;;
  Session.close_session E;;
  call E TransportClose;;
  call E SocketClose.

(** The [finally] block of [SSHClient.start_session]. *)
Definition cleanup (E : env) : M unit :=
  Session.close_session E;;
  call E TransportClose;;
  call E SocketClose.

(** The credential part of [SSHClient.start_session]. *)
Definition authenticate (E : env) (user : string)
    (auth_secret : SSHClient.secret) : M unit :=
  match auth_secret with
  | SSHClient.Password s => call E (AuthPassword user s)
  | SSHClient.Key k =>
      try_except (call E (AuthPublickey user k))
        (fun e =>
           match e with
           | AuthenticationException =>
               call E Getpass;;
               call E (AuthPassword user (typed_secret E))
           | _ => raise e
           end)
  end.


(** No teardown call ever raises. *)
Definition teardown_never_raises (E : env) : Prop :=
  forall tr o, is_teardown o = true -> raises E tr o = None.

(** The calls that set a non-interactive session up never raise, a
    [set_logs] hook raises at most [AttributeError], and no stdin hook
    raises on the command. *)
Definition setup_never_raises (E : env) (command : string) : Prop :=
  (forall tr, raises E tr OpenSession = None) /\
  (forall tr columns lines, raises E tr (GetPty columns lines) = None) /\
  (forall tr s, raises E tr (CallHook s set_logs) = None \/
                raises E tr (CallHook s set_logs) = Some AttributeError) /\
  (forall tr, raises E tr (ExecCommand command) = None) /\
  (forall tr s, raises E tr (CallHook s (stdin_filter command)) = None).

(** Quiet surroundings of a forced command [ls]. *)
Definition forced_ls : env := env_of quiet [] (Ok "id_rsa") (Some "ls").

(** Surroundings in which the completion callback raises. *)
Definition callback_fails : env :=
  env_of (fun o => match o with
                   | SessionEndCallback => Some (RuntimeError "log")
                   | _ => None
                   end) [] (Ok "id_rsa") None.

(** Surroundings in which the channel cannot be opened. *)
Definition open_fails : env :=
  env_of (fun o => match o with
                   | OpenSession => Some SSHException
                   | _ => None
                   end) [] (Ok "id_rsa") None.

(** A session in which the remote side sends ["hi"] and closes. *)
Definition short_session : list tick := [chunk "hi" (Ok 2%nat); chunk "" (Ok 0%nat)].

(** A call that closes neither the transport nor the socket. *)
Definition leaves_connection_open : op -> Prop :=
  fun o => o <> TransportClose /\ o <> SocketClose.

(** The remote side accepts, respectively rejects, the key [k] of [user]. *)
Definition key_accepted (E : env) (user : string) (k : pkey) : Prop :=
  forall tr, raises E tr (AuthPublickey user k) = None.

Definition key_rejected (E : env) (user : string) (k : pkey) : Prop :=
  forall tr, raises E tr (AuthPublickey user k) = Some AuthenticationException.

(** The agent, the transport and the prompt are available. *)
Definition credentials_reachable (E : env) : Prop :=
  (forall tr, raises E tr AgentGetKeys = None) /\
  (forall tr, raises E tr GetTransport = None) /\
  (forall tr, raises E tr Getpass = None).

(** An agent with two keys; the remote side rejects the first one only. *)
Definition two_agent_keys : env :=
  env_of (fun o => match o with
                   | AuthPublickey _ "k1" => Some AuthenticationException
                   | _ => None
                   end) ["k1"; "k2"] (Ok "id_rsa") None.

(** The value of the last term that starts with the five-character
    [prefix], if any term does. *)
Definition last_value (prefix : string) (terms : list string) : option string :=
  Py.slice_from 5 <$> last (List.filter (Py.startswith prefix) terms).

(** The terms of the original command. *)
Definition terms_of (environ : gmap string string) : list string :=
  Py.split " "%char
    (Py.strip (default "" (environ !! Aker.SSH_ORIGINAL_COMMAND))).

(** A computation that never sleeps in [select]. *)
Definition never_waits {A} (m : M A) : Prop :=
  forall w w', m w <> (Wait, w').

(** The loop has not been left by an exception. *)
Definition not_raised {A} (r : outcome A) : Prop := forall e, r <> Exc e.

(** A world in which the resize handler is installed, and surroundings in
    which the remote resize raises. *)
Definition world_winch : world :=
  {| trace := []; tty := cooked; stdout := ""; pty := Some (80, 24);
     winch_handler := true |}.

Definition resize_fails : env :=
  env_of (fun o => match o with
                   | ResizePty _ _ => Some SSHException
                   | _ => None
                   end) [] (Ok "id_rsa") None.

(** Surroundings in which the stop hook of the core's observer raises. *)
Definition stop_fails : env :=
  env_of (fun o => match o with
                   | CallHook 0 stop => Some (RuntimeError "disk full")
                   | _ => None
                   end) [] (Ok "id_rsa") None.

(** Surroundings of the forced command [host=db1 port=2222]. *)
Definition forced_proxy : env :=
  env_of quiet [] (Ok "id_rsa") (Some "host=db1 port=2222").

(** The call of hook [h] returns for the observers [pre], whenever it is
    made, and raises [e] for the observer [s]. *)
Definition first_failure (E : env) (pre : list sniffer) (s : sniffer)
    (e : exn) (h : hook) : Prop :=
  (forall tr s', In s' pre -> raises E tr (CallHook s' h) = None) /\
  (forall tr, raises E tr (CallHook s h) = Some e).

(** Surroundings in which every hook of observer 1 raises. *)
Definition noisy : env :=
  env_of (fun o => match o with
                   | CallHook 1%nat _ => Some (RuntimeError "boom")
                   | _ => None
                   end) [] (Ok "id_rsa") None.

(** The world on entry of the multiplexing loop: the attributes are read,
    then the terminal is made raw, then cbreak. *)
Definition entered (w : world) : world :=
  {| trace := trace w ++ [Tcgetattr; SetRaw; SetCbreak];
     tty := cbreak (raw (tty w)); stdout := stdout w; pty := pty w;
     winch_handler := winch_handler w |}.

(** The world once the [finally] block has put the attributes [a] back. *)
Definition restored (a : termios_attr) (w : world) : world :=
  {| trace := trace w ++ [Tcsetattr a]; tty := a; stdout := stdout w;
     pty := pty w; winch_handler := winch_handler w |}.

(** No channel-data hook raises [socket.timeout]. *)
Definition hooks_never_time_out (E : env) : Prop :=
  forall tr s x, raises E tr (CallHook s (channel_filter x)) <> Some SocketTimeout.

(** A session of three turns: the write of the first chunk would block. *)
Definition blocked_then_fine : list tick :=
  [chunk "ab" (Raise (OSError EAGAIN)); chunk "cd" (Ok 2%nat);
   chunk "" (Ok 0%nat)].

Definition calm : env := env_of quiet [] (Ok "id_rsa") None.

(** * Properties *)

(** ** The monad *)

Lemma bind_run {A B} (m : M A) (f : A -> M B) (w : world) :
  (m ≫= f) w = match m w with
               | (Ret a, w') => f a w'
               | (Exc e, w') => (Exc e, w')
               | (Wait, w') => (Wait, w')
               end.
Proof. reflexivity. Qed.

Lemma record_all_nil (w : world) : record_all [] w = w.
Proof. destruct w; unfold record_all; simpl. by rewrite app_nil_r. Qed.

Lemma record_all_one (o : op) (w : world) : record o w = record_all [o] w.
Proof. reflexivity. Qed.

Lemma record_all_app (a b : list op) (w : world) :
  record_all b (record_all a w) = record_all (a ++ b) w.
Proof. unfold record_all; simpl. by rewrite app_assoc. Qed.

Lemma record_all_cons (o : op) (l : list op) (w : world) :
  record_all l (record o w) = record_all (o :: l) w.
Proof. rewrite record_all_one, record_all_app. reflexivity. Qed.

Lemma call_ok (E : env) (o : op) (w : world) :
  raises E (trace w) o = None -> call E o w = (Ret tt, record o w).
Proof. intros H. unfold call. by rewrite H. Qed.

Lemma call_raises (E : env) (o : op) (e : exn) (w : world) :
  raises E (trace w) o = Some e -> call E o w = (Exc e, record o w).
Proof. intros H. unfold call. by rewrite H. Qed.

(** A loop of calls none of which raises makes them all, in order. *)
Lemma for_each_call_ok {A} (E : env) (f : A -> op) (l : list A) (w : world) :
  (forall tr x, In x l -> raises E tr (f x) = None) ->
  for_each l (fun x => call E (f x)) w = (Ret tt, record_all (map f l) w).
Proof.
  revert w. induction l as [|x l IH]; intros w H; simpl.
  - by rewrite record_all_nil.
  - rewrite bind_run, call_ok by (apply H; by left).
    rewrite IH by (intros tr y Hy; apply H; by right).
    by rewrite record_all_cons.
Qed.

(** A loop of calls stops at the first one that raises: the elements after
    it are not visited. *)
Lemma for_each_call_raises {A} (E : env) (f : A -> op) (pre post : list A)
    (x : A) (e : exn) (w : world) :
  (forall tr y, In y pre -> raises E tr (f y) = None) ->
  raises E (trace w ++ map f pre) (f x) = Some e ->
  for_each (pre ++ x :: post) (fun y => call E (f y)) w
  = (Exc e, record_all (map f (pre ++ [x])) w).
Proof.
  revert w. induction pre as [|y pre IH]; intros w Hpre Hx; simpl in *.
  - rewrite app_nil_r in Hx. by rewrite bind_run, (call_raises E _ e).
  - rewrite bind_run, call_ok by (apply Hpre; by left).
    rewrite IH.
    + by rewrite record_all_cons.
    + intros tr z Hz. apply Hpre. by right.
    + simpl. by rewrite <- app_assoc.
Qed.

(** ** What a computation keeps

    [keeps Q m] follows the structure of [m] for every relation [Q] that is
    reflexive and transitive. *)

Section Keeps.

Variable Q : world -> world -> Prop.
Hypothesis Q_refl : forall w, Q w w.
Hypothesis Q_trans : forall a b c, Q a b -> Q b c -> Q a c.

Lemma keeps_ret {A} (a : A) : keeps Q (mret a).
Proof using Q_refl. intros w r w' [= <- <-]. apply Q_refl. Qed.

Lemma keeps_raise {A} (e : exn) : keeps Q (@raise A e).
Proof using Q_refl. intros w r w' [= <- <-]. apply Q_refl. Qed.

Lemma keeps_wait {A} : keeps Q (@wait A).
Proof using Q_refl. intros w r w' [= <- <-]. apply Q_refl. Qed.

Lemma keeps_of_result {A} (r : result A) : keeps Q (of_result r).
Proof using Q_refl. destruct r; [apply keeps_ret | apply keeps_raise]. Qed.

Lemma keeps_bind {A B} (m : M A) (f : A -> M B) :
  keeps Q m -> (forall a, keeps Q (f a)) -> keeps Q (m ≫= f).
Proof using Q_trans.
  intros Hm Hf w r w' H. rewrite bind_run in H.
  destruct (m w) as [[a|e|] w1] eqn:Hmw.
  - eapply Q_trans; [eapply Hm, Hmw | eapply Hf, H].
  - injection H as <- <-. eapply Hm, Hmw.
  - injection H as <- <-. eapply Hm, Hmw.
Qed.

Lemma keeps_try_except {A} (m : M A) (h : exn -> M A) :
  keeps Q m -> (forall e, keeps Q (h e)) -> keeps Q (try_except m h).
Proof using Q_trans.
  intros Hm Hh w r w' H. unfold try_except in H.
  destruct (m w) as [[a|e|] w1] eqn:Hmw.
  - injection H as <- <-. eapply Hm, Hmw.
  - eapply Q_trans; [eapply Hm, Hmw | eapply Hh, H].
  - injection H as <- <-. eapply Hm, Hmw.
Qed.

Lemma keeps_try_finally {A} (m : M A) (f : M unit) :
  keeps Q m -> keeps Q f -> keeps Q (try_finally m f).
Proof using Q_trans.
  intros Hm Hf w r w' H. unfold try_finally in H.
  destruct (m w) as [[a|e|] w1] eqn:Hmw.
  - destruct (f w1) as [[u|e'|] w2] eqn:Hfw; injection H as <- <-;
      (eapply Q_trans; [eapply Hm, Hmw | eapply Hf, Hfw]).
  - destruct (f w1) as [[u|e'|] w2] eqn:Hfw; injection H as <- <-;
      (eapply Q_trans; [eapply Hm, Hmw | eapply Hf, Hfw]).
  - injection H as <- <-. eapply Hm, Hmw.
Qed.

Lemma keeps_for_each {A} (l : list A) (f : A -> M unit) :
  (forall x, keeps Q (f x)) -> keeps Q (for_each l f).
Proof using Q_refl Q_trans.
  intros Hf. induction l as [|x l IH]; simpl.
  - apply keeps_ret.
  - apply keeps_bind; [apply Hf | intros _; apply IH].
Qed.

End Keeps.

(** ** Traces only grow *)

Lemma grows_by_refl (P : op -> Prop) (w : world) : grows_by P w w.
Proof. exists []. split; [by rewrite app_nil_r | constructor]. Qed.

Lemma grows_by_trans (P : op -> Prop) (a b c : world) :
  grows_by P a b -> grows_by P b c -> grows_by P a c.
Proof.
  intros (t1 & H1 & F1) (t2 & H2 & F2). exists (t1 ++ t2). split.
  - by rewrite H2, H1, app_assoc.
  - by apply Forall_app.
Qed.

Lemma grows_by_weaken (P P' : op -> Prop) (w w' : world) :
  (forall o, P o -> P' o) -> grows_by P w w' -> grows_by P' w w'.
Proof.
  intros HP (tr & H & F). exists tr. split; [exact H|].
  eapply Forall_impl; [exact F | exact HP].
Qed.

Lemma grows_by_record (P : op -> Prop) (o : op) (w : world) :
  P o -> grows_by P w (record o w).
Proof. intros Ho. exists [o]. split; [reflexivity | by constructor]. Qed.

Lemma keeps_call (P : op -> Prop) (E : env) (o : op) :
  P o -> keeps (grows_by P) (call E o).
Proof.
  intros Ho w r w' H. unfold call in H.
  destruct (raises E (trace w) o); injection H as <- <-;
    by apply grows_by_record.
Qed.

Lemma keeps_answer (P : op -> Prop) {A} (o : op) (r : result A) :
  P o -> keeps (grows_by P) (answer o r).
Proof.
  intros Ho w r' w' H. unfold answer in H.
  destruct r; injection H as <- <-; by apply grows_by_record.
Qed.

Lemma keeps_set_pty (P : op -> Prop) (columns lines : Z) :
  keeps (grows_by P) (set_pty columns lines).
Proof. intros w r w' [= <- <-]. apply (grows_by_refl P w). Qed.

Lemma keeps_emit (P : op -> Prop) (x : string) : keeps (grows_by P) (emit x).
Proof. intros w r w' [= <- <-]. apply (grows_by_refl P w). Qed.

Lemma keeps_winch_installed (P : op -> Prop) :
  keeps (grows_by P) winch_installed.
Proof. intros w r w' [= <- <-]. apply grows_by_refl. Qed.

Lemma keeps_set_winch_handler (P : op -> Prop) :
  keeps (grows_by P) set_winch_handler.
Proof. intros w r w' [= <- <-]. apply (grows_by_refl P w). Qed.

(** Structural descent into a computation, down to its primitive calls. *)
Ltac keeps_struct Hrefl Htrans :=
  repeat match goal with
    | |- keeps _ (mret _) => apply keeps_ret, Hrefl
    | |- keeps _ (raise _) => apply keeps_raise, Hrefl
    | |- keeps _ wait => apply keeps_wait, Hrefl
    | |- keeps _ (of_result _) => apply keeps_of_result, Hrefl
    | |- keeps _ (_ ≫= _) => apply keeps_bind; [apply Htrans | | intros ?]
    | |- keeps _ (try_except _ _) =>
        apply keeps_try_except; [apply Htrans | | intros ?]
    | |- keeps _ (try_finally _ _) =>
        apply keeps_try_finally; [apply Htrans | | ]
    | |- keeps _ (for_each _ _) =>
        apply keeps_for_each; [apply Hrefl | apply Htrans | intros ?]
    | |- keeps _ (match ?x with _ => _ end) => destruct x
    end.

Ltac side :=
  first [ reflexivity
        | exact I
        | match goal with
          | H : forall o, _ -> ?P o |- ?P _ => apply H; reflexivity
          end ].

Ltac grows :=
  keeps_struct grows_by_refl grows_by_trans;
  first [ apply keeps_call; side
        | apply keeps_answer; side
        | apply keeps_set_pty
        | apply keeps_emit
        | apply keeps_winch_installed
        | apply keeps_set_winch_handler
        | idtac ].

Lemma sigwinch_grows (E : env) (sniffers : list sniffer)
    (reply : result winsize) :
  keeps (grows_by loop_ops) (SSHClient.sigwinch E sniffers reply).
Proof. unfold SSHClient.sigwinch, loop_ops. grows. Qed.

Lemma on_channel_grows (E : env) (sniffers : list sniffer) (t : tick) :
  keeps (grows_by loop_ops) (SSHClient.on_channel E sniffers t).
Proof. unfold SSHClient.on_channel, loop_ops. grows. Qed.

Lemma on_stdin_grows (E : env) (sniffers : list sniffer) (t : tick) :
  keeps (grows_by loop_ops) (SSHClient.on_stdin E sniffers t).
Proof. unfold SSHClient.on_stdin, loop_ops. grows. Qed.

Lemma turn_grows (E : env) (sniffers : list sniffer) (t : tick) :
  keeps (grows_by loop_ops) (SSHClient.turn E sniffers t).
Proof.
  unfold SSHClient.turn.
  apply keeps_bind; [apply grows_by_trans | apply keeps_winch_installed |].
  intros installed.
  apply keeps_bind; [apply grows_by_trans | | intros _].
  { destruct installed.
    - apply keeps_for_each;
        [apply grows_by_refl | apply grows_by_trans | intros sz].
      apply sigwinch_grows.
    - apply keeps_ret, grows_by_refl. }
  apply keeps_bind; [apply grows_by_trans | by apply keeps_call | intros _].
  apply keeps_bind; [apply grows_by_trans | | intros f].
  { destruct (channel_ready t);
      [apply on_channel_grows | apply keeps_ret, grows_by_refl]. }
  destruct f; try apply keeps_ret, grows_by_refl.
  apply keeps_bind; [apply grows_by_trans | | intros _].
  { destruct (stdin_ready t);
      [apply on_stdin_grows | apply keeps_ret, grows_by_refl]. }
  apply keeps_ret, grows_by_refl.
Qed.

Lemma multiplex_grows (E : env) (sniffers : list sniffer) (script : list tick) :
  keeps (grows_by loop_ops) (SSHClient.multiplex E sniffers script).
Proof.
  induction script as [|t script IH]; simpl.
  - apply keeps_wait, grows_by_refl.
  - apply keeps_bind; [apply grows_by_trans | apply turn_grows | intros f].
    destruct f; try exact IH. apply keeps_ret, grows_by_refl.
Qed.

(** ** Calls leave standard output alone *)

Lemma same_stdout_refl (w : world) : same_stdout w w.
Proof. reflexivity. Qed.

Lemma same_stdout_trans (a b c : world) :
  same_stdout a b -> same_stdout b c -> same_stdout a c.
Proof. unfold same_stdout. congruence. Qed.

Lemma silent_call (E : env) (o : op) : keeps same_stdout (call E o).
Proof.
  intros w r w' H. unfold call in H.
  destruct (raises E (trace w) o); injection H as <- <-; reflexivity.
Qed.

Lemma silent_answer {A} (o : op) (r : result A) : keeps same_stdout (answer o r).
Proof.
  intros w r' w' H. unfold answer in H.
  destruct r; injection H as <- <-; reflexivity.
Qed.

Lemma silent_set_pty (columns lines : Z) :
  keeps same_stdout (set_pty columns lines).
Proof. intros w r w' [= <- <-]. reflexivity. Qed.

Lemma silent_winch_installed : keeps same_stdout winch_installed.
Proof. intros w r w' [= <- <-]. reflexivity. Qed.

Ltac silent :=
  keeps_struct same_stdout_refl same_stdout_trans;
  first [ apply silent_call
        | apply silent_answer
        | apply silent_set_pty
        | apply silent_winch_installed
        | idtac ].

Lemma sigwinch_silent (E : env) (sniffers : list sniffer)
    (reply : result winsize) :
  keeps same_stdout (SSHClient.sigwinch E sniffers reply).
Proof. unfold SSHClient.sigwinch. silent. Qed.

Lemma on_stdin_silent (E : env) (sniffers : list sniffer) (t : tick) :
  keeps same_stdout (SSHClient.on_stdin E sniffers t).
Proof. unfold SSHClient.on_stdin. silent. Qed.

(** ** What the loop writes *)

Lemma append_empty_r (s : string) : s +:+ "" = s.
Proof.
  induction s as [|c s IH]; [reflexivity|].
  change (String c (s +:+ "") = String c s). by rewrite IH.
Qed.

Lemma append_assoc (a b c : string) : (a +:+ b) +:+ c = a +:+ (b +:+ c).
Proof.
  induction a as [|x a IH]; [reflexivity|].
  change (String x ((a +:+ b) +:+ c) = String x (a +:+ (b +:+ c))).
  by rewrite IH.
Qed.

Lemma bind_ret_inv {A B} (m : M A) (f : A -> M B) (w w' : world) (b : B) :
  (m ≫= f) w = (Ret b, w') ->
  exists a w1, m w = (Ret a, w1) /\ f a w1 = (Ret b, w').
Proof.
  rewrite bind_run. destruct (m w) as [[a|e|] w1]; intros H; try discriminate.
  by exists a, w1.
Qed.

Lemma hooks_silent (E : env) (sniffers : list sniffer) (h : hook) :
  keeps same_stdout (for_each sniffers (fun s => call E (CallHook s h))).
Proof. silent. Qed.

(** An exception that leaves a loop of calls was raised by one of them. *)
Lemma for_each_call_exc {A} (E : env) (f : A -> op) (l : list A) (e : exn)
    (w w' : world) :
  for_each l (fun x => call E (f x)) w = (Exc e, w') ->
  exists tr x, In x l /\ raises E tr (f x) = Some e.
Proof.
  revert w. induction l as [|x l IH]; intros w; simpl; [discriminate|].
  rewrite bind_run. unfold call at 1.
  destruct (raises E (trace w) (f x)) as [e'|] eqn:Hx.
  - intros [= <- <-]. exists (trace w), x. split; [by left | exact Hx].
  - intros H. apply IH in H as (tr & y & Hy & Hr).
    exists tr, y. split; [by right | exact Hr].
Qed.

(** Only the head of the loop waits. *)

Lemma never_waits_ret {A} (a : A) : never_waits (mret a).
Proof. intros w w'. discriminate. Qed.

Lemma never_waits_raise {A} (e : exn) : never_waits (@raise A e).
Proof. intros w w'. discriminate. Qed.

Lemma never_waits_of_result {A} (r : result A) : never_waits (of_result r).
Proof. destruct r; intros w w'; discriminate. Qed.

Lemma never_waits_bind {A B} (m : M A) (f : A -> M B) :
  never_waits m -> (forall a, never_waits (f a)) -> never_waits (m ≫= f).
Proof.
  intros Hm Hf w w'. rewrite bind_run.
  destruct (m w) as [[a|e|] w1] eqn:Hmw; [apply Hf | discriminate |].
  by apply Hm in Hmw.
Qed.

Lemma never_waits_try_except {A} (m : M A) (h : exn -> M A) :
  never_waits m -> (forall e, never_waits (h e)) -> never_waits (try_except m h).
Proof.
  intros Hm Hh w w'. unfold try_except.
  destruct (m w) as [[a|e|] w1] eqn:Hmw; [discriminate | apply Hh |].
  by apply Hm in Hmw.
Qed.

Lemma never_waits_for_each {A} (l : list A) (f : A -> M unit) :
  (forall x, never_waits (f x)) -> never_waits (for_each l f).
Proof.
  intros Hf. induction l as [|x l IH]; simpl.
  - apply never_waits_ret.
  - apply never_waits_bind; [apply Hf | intros _; apply IH].
Qed.

Lemma never_waits_call (E : env) (o : op) : never_waits (call E o).
Proof.
  intros w w'. unfold call. destruct (raises E (trace w) o); discriminate.
Qed.

Lemma never_waits_answer {A} (o : op) (r : result A) : never_waits (answer o r).
Proof. intros w w'. unfold answer. destruct r; discriminate. Qed.

Ltac prompt :=
  repeat match goal with
    | |- never_waits (mret _) => apply never_waits_ret
    | |- never_waits (raise _) => apply never_waits_raise
    | |- never_waits (of_result _) => apply never_waits_of_result
    | |- never_waits (_ ≫= _) => apply never_waits_bind; [|intros ?]
    | |- never_waits (try_except _ _) =>
        apply never_waits_try_except; [|intros ?]
    | |- never_waits (for_each _ _) => apply never_waits_for_each; intros ?
    | |- never_waits (call _ _) => apply never_waits_call
    | |- never_waits (answer _ _) => apply never_waits_answer
    | |- never_waits (set_pty _ _) => intros ? ?; discriminate
    | |- never_waits (emit _) => intros ? ?; discriminate
    | |- never_waits winch_installed => intros ? ?; discriminate
    | |- never_waits (match ?x with _ => _ end) => destruct x
    end.

Lemma turn_never_waits (E : env) (sniffers : list sniffer) (t : tick) :
  never_waits (SSHClient.turn E sniffers t).
Proof.
  unfold SSHClient.turn, SSHClient.sigwinch, SSHClient.on_channel,
    SSHClient.on_stdin.
  prompt.
Qed.

Lemma on_channel_stdout (E : env) (sniffers : list sniffer) (t : tick)
    (w w' : world) (f : SSHClient.flow) :
  hooks_never_time_out E ->
  SSHClient.on_channel E sniffers t w = (Ret f, w') ->
  match recv t with
  | Ok x =>
      if Nat.eqb (String.length x) 0
      then f = SSHClient.Break /\ stdout w' = stdout w
      else f <> SSHClient.Break /\
           stdout w' = stdout w +:+ accepted (x, write t)
  | Raise _ => f <> SSHClient.Break /\ stdout w' = stdout w
  end.
Proof.
  intros Hto.
  unfold SSHClient.on_channel, try_except, answer. rewrite bind_run.
  destruct (recv t) as [x|e]; simpl of_result.
  - unfold mret at 1, M_ret at 1.
    destruct (Nat.eqb (String.length x) 0).
    + intros [= <- <-]. by split.
    + rewrite bind_run.
      destruct (for_each sniffers _ (record ChannelRecv w))
        as [[[]|e|] w1] eqn:Hh.
      * apply hooks_silent in Hh. unfold same_stdout in Hh. simpl in Hh.
        rewrite bind_run.
        destruct (write t) as [n|e]; simpl.
        -- intros [= <- <-]. simpl. rewrite Hh. by split.
        -- destruct e; simpl; try discriminate;
             try (intros [= <- <-]; rewrite append_empty_r; by split).
           destruct (Z.eqb errno EAGAIN); intros [= <- <-];
             rewrite append_empty_r; by split.
      * destruct e; simpl; try discriminate.
        apply (for_each_call_exc E (fun s => CallHook s (channel_filter x)))
          in Hh as (tr & s & _ & Hr).
        by apply Hto in Hr.
      * discriminate.
  - unfold raise at 1. destruct e; simpl; try discriminate.
    intros [= <- <-]. by split.
Qed.

Lemma turn_stdout (E : env) (sniffers : list sniffer) (t : tick)
    (w w' : world) (f : SSHClient.flow) :
  hooks_never_time_out E ->
  SSHClient.turn E sniffers t w = (Ret f, w') ->
  match reading_of t with
  | Closed => f = SSHClient.Break /\ stdout w' = stdout w
  | NoChunk => f <> SSHClient.Break /\ stdout w' = stdout w
  | Chunk x wr =>
      f <> SSHClient.Break /\ stdout w' = stdout w +:+ accepted (x, wr)
  end.
Proof.
  intros Hto H. unfold SSHClient.turn in H.
  apply bind_ret_inv in H as (installed & w1 & H1 & H).
  injection H1 as <- <-.
  apply bind_ret_inv in H as ([] & w2 & H2 & H).
  assert (S2 : stdout w2 = stdout w).
  { destruct (winch_handler w).
    - revert H2. apply (keeps_for_each same_stdout same_stdout_refl
                          same_stdout_trans). intros sz. apply sigwinch_silent.
    - by injection H2 as <-. }
  apply bind_ret_inv in H as ([] & w3 & H3 & H).
  apply silent_call in H3. unfold same_stdout in H3.
  apply bind_ret_inv in H as (f0 & w4 & H4 & H).
  assert (S5 : f0 = SSHClient.Next -> f <> SSHClient.Break /\ stdout w' = stdout w4).
  { intros ->. apply bind_ret_inv in H as ([] & w5 & H5 & H).
    injection H as <- <-. split; [discriminate|].
    destruct (stdin_ready t).
    - by apply on_stdin_silent in H5.
    - by injection H5 as <-. }
  assert (S6 : f0 <> SSHClient.Next -> f = f0 /\ w' = w4).
  { intros Hne. destruct f0; try done; by injection H as <- <-. }
  clear H. unfold reading_of.
  destruct (channel_ready t).
  - apply (on_channel_stdout E sniffers t w3 w4 f0 Hto) in H4.
    destruct (recv t) as [x|e].
    + destruct (Nat.eqb (String.length x) 0).
      * destruct H4 as [-> H4]. destruct S6 as [-> ->]; [done|].
        split; [done | congruence].
      * destruct H4 as [Hnb H4]. destruct f0.
        -- done.
        -- destruct S6 as [-> ->]; [done|]. split; [done | congruence].
        -- destruct S5 as [Hf ->]; [done|]. split; [done | congruence].
    + destruct H4 as [Hnb H4]. destruct f0.
      * done.
      * destruct S6 as [-> ->]; [done|]. split; [done | congruence].
      * destruct S5 as [Hf ->]; [done|]. split; [done | congruence].
  - injection H4 as <- <-. destruct S5 as [Hf ->]; [done|].
    split; [done | congruence].
Qed.

Lemma multiplex_stdout (E : env) (sniffers : list sniffer) (script : list tick)
    (w w' : world) (r : outcome unit) :
  hooks_never_time_out E ->
  SSHClient.multiplex E sniffers script w = (r, w') ->
  not_raised r ->
  stdout w' = stdout w +:+ string_concat (map accepted (chunks_read script)).
Proof.
  intros Hto. revert w. induction script as [|t script IH]; intros w; simpl.
  - intros [= <- <-] _. by rewrite append_empty_r.
  - rewrite bind_run.
    destruct (SSHClient.turn E sniffers t w) as [[f|e|] w1] eqn:Ht.
    + apply (turn_stdout E sniffers t w w1 f Hto) in Ht.
      intros H Hr.
      destruct (reading_of t) as [|x wr|].
      * destruct Ht as [Hf Hs]. rewrite <- Hs.
        destruct f; [done | by apply IH | by apply IH].
      * destruct Ht as [Hf Hs]. cbn [map string_concat].
        rewrite <- append_assoc, <- Hs.
        destruct f; [done | by apply IH | by apply IH].
      * destruct Ht as [-> Hs]. injection H as <- <-. simpl.
        by rewrite append_empty_r.
    + intros [= <- <-] Hr. by destruct (Hr e).
    + by apply turn_never_waits in Ht.
Qed.

Lemma enter_loop {A} (k : M A) (w : world) :
  (setraw;; setcbreak;; k) (record Tcgetattr w) = k (entered w).
Proof.
  rewrite bind_run. unfold setraw, set_tty.
  rewrite bind_run. unfold setcbreak, set_tty.
  f_equal. unfold entered, record; simpl. f_equal. by rewrite <- !app_assoc.
Qed.

Lemma interactive_shell_run (E : env) (sniffers : list sniffer)
    (script : list tick) (w : world) :
  SSHClient.interactive_shell E sniffers script w
  = match SSHClient.multiplex E sniffers script (entered w) with
    | (Wait, w1) => (Wait, w1)
    | (r, w1) => (r, restored (tty w) w1)
    end.
Proof.
  unfold SSHClient.interactive_shell, try_finally.
  rewrite bind_run. unfold tcgetattr at 1. rewrite enter_loop.
  destruct (SSHClient.multiplex E sniffers script (entered w))
    as [[[]|e|] w1]; reflexivity.
Qed.

Lemma filter_nothing (p : op -> bool) (P : op -> Prop) (tr : list op) :
  (forall o, P o -> p o = false) -> Forall P tr -> List.filter p tr = [].
Proof.
  intros HP F. induction F as [|o tr Ho F IH]; simpl; [reflexivity|].
  by rewrite (HP o Ho).
Qed.

Lemma string_take_all (n : nat) (x : string) :
  (String.length x <= n)%nat -> string_take n x = x.
Proof.
  revert n. induction x as [|c x IH]; intros n H; destruct n; simpl in *;
    try reflexivity; try lia.
  rewrite IH; [reflexivity | lia].
Qed.

Lemma accepted_complete (l : list (string * result nat)) :
  Forall complete l -> map accepted l = map fst l.
Proof.
  induction 1 as [|[x [n|e]] l Hc F IH]; simpl in *; [reflexivity | | done].
  by rewrite IH, string_take_all.
Qed.

(** C2: whenever the multiplexing loop is left, by the end of the stream or
    by an exception (of a call, of an observer, or of the resize handler
    run for a signal), the terminal mode is the one read before the loop
    was entered, and among the calls made the one that puts the saved
    attributes back is the last and only [tcsetattr]. *)
Theorem terminal_mode_restored (E : env) (sniffers : list sniffer)
    (script : list tick) (w w' : world) (r : outcome unit) :
  SSHClient.interactive_shell E sniffers script w = (r, w') ->
  r <> Wait ->
  tty w' = tty w /\
  exists tr,
    trace w' = trace w ++ tr ++ [Tcsetattr (tty w)] /\
    select_ops is_restore tr = [].
Proof.
  rewrite interactive_shell_run.
  destruct (SSHClient.multiplex E sniffers script (entered w))
    as [r1 w1] eqn:Hm.
  apply multiplex_grows in Hm as (tr & Htr & F).
  intros H Hr.
  assert (Hw : w' = restored (tty w) w1 /\ r = r1)
    by (destruct r1; injection H as <- <-; done).
  destruct Hw as [-> _]. split; [reflexivity|].
  exists ([Tcgetattr; SetRaw; SetCbreak] ++ tr). split.
  - simpl trace. rewrite Htr. simpl trace. by rewrite <- !app_assoc.
  - unfold select_ops. simpl.
    apply (filter_nothing is_restore loop_ops); [|exact F].
    intros o Ho. unfold loop_ops in Ho. by destruct o.
Qed.

(** C1, as the specification states it, fails: the write of the chunk
    ["ab"] would block, the loop goes on, and the chunk never reaches
    standard output: it was offered to [os.write] once and not again. *)
Lemma blocked_write_loses_chunk :
  let run := SSHClient.interactive_shell calm [0%nat] blocked_then_fine world0 in
  map fst (chunks_read blocked_then_fine) = ["ab"; "cd"] /\
  fst run = Ret tt /\
  stdout (snd run) = "cd" /\
  stdout (snd run) <> "ab" +:+ "cd" /\
  select_ops (fun o => bool_decide (o = StdoutWrite "ab")) (trace (snd run))
  = [StdoutWrite "ab"].
Proof. vm_compute. repeat split; try reflexivity. discriminate. Qed.

(** C1 (amended): as long as the multiplexing loop has not been left by an
    exception, the bytes delivered to standard output are, in order, what
    [os.write] took of each chunk read before the first zero-length read:
    the concatenation of those chunks when every write is complete. A write
    that would block is not an error, the loop goes on to its next turn;
    but the chunk is not offered again, it is missing from standard
    output. (Observers are assumed not to raise [socket.timeout], which the
    loop would swallow together with the chunk.) *)
Theorem stdout_is_what_was_written (E : env) (sniffers : list sniffer)
    (script : list tick) (w w' : world) (r : outcome unit) :
  hooks_never_time_out E ->
  SSHClient.interactive_shell E sniffers script w = (r, w') ->
  not_raised r ->
  stdout w' = stdout w +:+ string_concat (map accepted (chunks_read script)) /\
  (Forall complete (chunks_read script) ->
   stdout w' = stdout w +:+ string_concat (map fst (chunks_read script))) /\
  (forall t x w0,
     recv t = Ok x -> String.length x <> 0%nat ->
     write t = Raise (OSError EAGAIN) ->
     (forall tr s, In s sniffers ->
                   raises E tr (CallHook s (channel_filter x)) = None) ->
     SSHClient.on_channel E sniffers t w0
     = (Ret SSHClient.Continue,
        record_all (ChannelRecv ::
                    map (fun s => CallHook s (channel_filter x)) sniffers ++
                    [StdoutWrite x]) w0)).
Proof.
  intros Hto H Hr. rewrite interactive_shell_run in H.
  destruct (SSHClient.multiplex E sniffers script (entered w))
    as [r1 w1] eqn:Hm.
  assert (Hout : stdout w' = stdout w1 /\ r = r1)
    by (destruct r1; injection H as <- <-; done).
  destruct Hout as [Hout ->].
  apply (multiplex_stdout E sniffers script _ _ _ Hto) in Hm; [|exact Hr].
  simpl in Hm. rewrite <- Hout in Hm. split; [exact Hm | split].
  - intros Hc. by rewrite <- (accepted_complete _ Hc).
  - intros t x w0 Hrecv Hlen Hwrite Hhooks.
    unfold SSHClient.on_channel, try_except, answer.
    rewrite bind_run, Hrecv. simpl of_result. unfold mret at 1, M_ret at 1.
    apply Nat.eqb_neq in Hlen. rewrite Hlen.
    rewrite bind_run.
    rewrite (for_each_call_ok E (fun s => CallHook s (channel_filter x)))
      by exact Hhooks.
    rewrite bind_run, Hwrite. simpl.
    unfold record, record_all; simpl. by rewrite <- !app_assoc.
Qed.

Lemma stdout_is_what_was_written_witness :
  hooks_never_time_out calm /\
  not_raised (fst (SSHClient.interactive_shell calm [0%nat] blocked_then_fine
                     world0)) /\
  stdout (snd (SSHClient.interactive_shell calm [0%nat] blocked_then_fine world0))
  = stdout world0 +:+
    string_concat (map accepted (chunks_read blocked_then_fine)).
Proof.
  assert (H : hooks_never_time_out calm) by (intros tr s x; discriminate).
  assert (Hr : not_raised (Ret tt : outcome unit)) by (intros e; discriminate).
  split; [exact H|]. split; [exact Hr|].
  apply (stdout_is_what_was_written calm [0%nat] blocked_then_fine world0 _
           (Ret tt) H); [|exact Hr].
  vm_compute. reflexivity.
Defined.

Lemma terminal_mode_restored_witness :
  let run := SSHClient.interactive_shell resize_fails [0; 1]%nat
               [chunk "ab" (Ok 2%nat);
                resized [Ok {| ws_row := 30; ws_col := 100 |}]] world_winch in
  fst run = Exc SSHException /\
  tty (snd run) = tty world_winch /\
  exists tr,
    trace (snd run) = trace world_winch ++ tr ++ [Tcsetattr (tty world_winch)] /\
    select_ops is_restore tr = [].
Proof.
  split; [vm_compute; reflexivity|].
  apply (terminal_mode_restored resize_fails [0; 1]%nat
           [chunk "ab" (Ok 2%nat);
                resized [Ok {| ws_row := 30; ws_col := 100 |}]]
           world_winch _ (Exc SSHException)).
  - vm_compute. reflexivity.
  - discriminate.
Defined.

(** ** Resize notifications *)

Lemma calls_to_app (s : sniffer) (a b : list op) :
  calls_to s (a ++ b) = calls_to s a ++ calls_to s b.
Proof.
  induction a as [|o a IH]; simpl; [reflexivity|].
  destruct o; try exact IH. destruct (Nat.eqb s0 s); simpl; by rewrite IH.
Qed.

Lemma calls_to_hooks (s : sniffer) (h : hook) (sniffers : list sniffer) :
  calls_to s (map (fun s' => CallHook s' h) sniffers)
  = repeat h (attachments s sniffers).
Proof.
  unfold attachments.
  induction sniffers as [|s' l IH]; simpl; [reflexivity|].
  destruct (Nat.eqb s' s); simpl; by rewrite IH.
Qed.

Lemma resizes_app (a b : list op) : resizes (a ++ b) = resizes a ++ resizes b.
Proof.
  induction a as [|o a IH]; simpl; [reflexivity|].
  destruct o; try exact IH. simpl. by rewrite IH.
Qed.

Lemma resizes_hooks (h : hook) (sniffers : list sniffer) :
  resizes (map (fun s => CallHook s h) sniffers) = [].
Proof. induction sniffers as [|s l IH]; simpl; [reflexivity | exact IH]. Qed.

Lemma sigwinch_run (E : env) (sniffers : list sniffer) (terminal : winsize)
    (w : world) :
  resize_never_raises E ->
  exists w',
    SSHClient.sigwinch E sniffers (Ok terminal) w = (Ret tt, w') /\
    pty w' = Some (dimensions_read terminal) /\
    trace w' = trace w ++ resize_trace sniffers (dimensions_read terminal).
Proof.
  intros [Hr Hh]. unfold SSHClient.sigwinch.
  rewrite bind_run. simpl of_result. unfold mret at 1, M_ret at 1.
  rewrite bind_run, call_ok by apply Hr.
  rewrite bind_run. unfold set_pty at 1.
  rewrite (for_each_call_ok E
             (fun s => CallHook s (sigwinch_hook (ws_row terminal)
                                     (ws_col terminal))))
    by (intros tr s _; apply Hh).
  eexists. split; [reflexivity|]. split; [reflexivity|].
  unfold resize_trace, resize_call, dimensions_read. simpl.
  by rewrite <- app_assoc.
Qed.

Lemma sigwinch_all_run (E : env) (sniffers : list sniffer)
    (terminals : list winsize) (w : world) :
  resize_never_raises E ->
  exists w',
    for_each (map Ok terminals) (SSHClient.sigwinch E sniffers) w
    = (Ret tt, w') /\
    pty w' = match last terminals with
             | Some terminal => Some (dimensions_read terminal)
             | None => pty w
             end /\
    trace w' = trace w ++
               concat (map (fun terminal =>
                              resize_trace sniffers (dimensions_read terminal))
                         terminals).
Proof.
  intros HE. revert w. induction terminals as [|t ts IH]; intros w.
  - exists w. simpl. by rewrite app_nil_r.
  - destruct (sigwinch_run E sniffers t w HE) as (w1 & H1 & P1 & T1).
    destruct (IH w1) as (w' & H & P & T).
    exists w'. cbn [map for_each]. rewrite bind_run, H1.
    split; [exact H|]. split.
    + rewrite P. destruct ts as [|t' ts']; [exact P1|].
      change (last (t :: t' :: ts')) with (last (t' :: ts')).
      destruct (last (t' :: ts')) eqn:Hl; [reflexivity|].
      by apply last_None in Hl.
    + rewrite T, T1. cbn [map concat]. by rewrite <- app_assoc.
Qed.

(** For every sequence of resize notifications handled by [sigwinch], as
    long as neither the remote resize nor a resize hook raises: the remote
    pseudo-terminal is given, and every observer attached once is told, one
    size per notification, in order; that size has the number of rows of
    the local terminal as its width and the number of columns as its
    height. *)
Lemma resize_notifications_transposed (E : env) (sniffers : list sniffer)
    (terminals : list winsize) (w : world) :
  resize_never_raises E ->
  exists w' tr,
    for_each (map Ok terminals) (SSHClient.sigwinch E sniffers) w
    = (Ret tt, w') /\
    pty w' = match last terminals with
             | Some terminal => Some (ws_row terminal, ws_col terminal)
             | None => pty w
             end /\
    trace w' = trace w ++ tr /\
    resizes tr = map dimensions_read terminals /\
    forall s, attachments s sniffers = 1%nat ->
              calls_to s tr
              = map (fun terminal =>
                       sigwinch_hook (ws_row terminal) (ws_col terminal))
                  terminals.
Proof.
  intros HE.
  destruct (sigwinch_all_run E sniffers terminals w HE) as (w' & H & P & T).
  exists w', (concat (map (fun terminal =>
                             resize_trace sniffers (dimensions_read terminal))
                        terminals)).
  split; [exact H|]. split; [exact P|]. split; [exact T|].
  clear. split.
  - induction terminals as [|t ts IH]; [reflexivity|].
    cbn [map concat]. rewrite resizes_app, IH. unfold resize_trace.
    cbn [resizes]. by rewrite resizes_hooks.
  - intros s Hs. induction terminals as [|t ts IH]; [reflexivity|].
    cbn [map concat]. rewrite calls_to_app, IH. unfold resize_trace.
    cbn [calls_to]. by rewrite calls_to_hooks, Hs.
Qed.

(** C9: the local terminal is resized to 120 columns and 40 lines during a
    session with two observers. The handler that the session installed
    reads the window size with rows first and takes them for the columns:
    the remote pseudo-terminal is resized to width 40 and height 120, and
    both observers are told 40 columns and 120 lines. The final size of the
    remote pseudo-terminal is not the size of the notification; the initial
    allocation of the same session had taken the columns first. *)
Theorem resize_swaps_columns_and_lines :
  let terminal := {| ws_row := 40; ws_col := 120 |} in
  let run := SSHClient._start_session calm [0; 1]%nat (80, 24)
               [resized [Ok terminal]; chunk "" (Ok 0%nat)] world0 in
  Client.get_console_dimensions (Ok terminal) = Ok (40, 120) /\
  fst run = Ret tt /\
  select_ops is_sizing (trace (snd run)) = [GetPty 80 24; ResizePty 40 120] /\
  pty (snd run) = Some (40, 120) /\
  pty (snd run) <> Some (120, 40) /\
  calls_to 0%nat (trace (snd run)) = [set_logs; sigwinch_hook 40 120] /\
  calls_to 1%nat (trace (snd run)) = [set_logs; sigwinch_hook 40 120].
Proof. vm_compute. repeat split; try reflexivity. discriminate. Qed.

(** ** The session: which calls each part makes *)

Lemma keeps_tcgetattr (P : op -> Prop) :
  P Tcgetattr -> keeps (grows_by P) tcgetattr.
Proof. intros H w r w' [= <- <-]. by apply grows_by_record. Qed.

Lemma keeps_tcsetattr (P : op -> Prop) (a : termios_attr) :
  P (Tcsetattr a) -> keeps (grows_by P) (tcsetattr a).
Proof. intros H w r w' [= <- <-]. exists [Tcsetattr a]. by split; [|constructor]. Qed.

Lemma keeps_setraw (P : op -> Prop) : P SetRaw -> keeps (grows_by P) setraw.
Proof. intros H w r w' [= <- <-]. exists [SetRaw]. by split; [|constructor]. Qed.

Lemma keeps_setcbreak (P : op -> Prop) :
  P SetCbreak -> keeps (grows_by P) setcbreak.
Proof. intros H w r w' [= <- <-]. exists [SetCbreak]. by split; [|constructor]. Qed.

Lemma multiplex_keeps (P : op -> Prop) (E : env) (sniffers : list sniffer)
    (script : list tick) :
  (forall o, is_session_op o = true -> P o) ->
  keeps (grows_by P) (SSHClient.multiplex E sniffers script).
Proof.
  intros HP w r w' H. apply multiplex_grows in H.
  revert H. apply grows_by_weaken. intros o Ho. apply HP.
  unfold is_session_op. unfold loop_ops in Ho. by rewrite Ho.
Qed.

Lemma interactive_shell_keeps (P : op -> Prop) (E : env)
    (sniffers : list sniffer) (script : list tick) :
  (forall o, is_session_op o = true -> P o) ->
  keeps (grows_by P) (SSHClient.interactive_shell E sniffers script).
Proof.
  intros HP. unfold SSHClient.interactive_shell. grows.
  - apply keeps_tcgetattr. side.
  - apply keeps_setraw. side.
  - apply keeps_setcbreak. side.
  - by apply multiplex_keeps.
  - apply keeps_tcsetattr. side.
Qed.

Lemma session_body_keeps (P : op -> Prop) (E : env) (sniffers : list sniffer)
    (size : Z * Z) (script : list tick) :
  (forall o, is_session_op o = true -> P o) ->
  keeps (grows_by P) (session_body E sniffers size script).
Proof.
  intros HP.
  unfold session_body, SSHClient._set_sniffer_logs, SSHClient.run_command.
  grows; by apply interactive_shell_keeps.
Qed.

Lemma closing_keeps (P : op -> Prop) (E : env) :
  (forall o, is_teardown o = true -> P o) -> keeps (grows_by P) (closing E).
Proof. intros HP. unfold closing, Session.close_session. grows. Qed.

Lemma cleanup_keeps (P : op -> Prop) (E : env) :
  (forall o, is_teardown o = true -> P o) -> keeps (grows_by P) (cleanup E).
Proof. intros HP. unfold cleanup, Session.close_session. grows. Qed.

Lemma authenticate_keeps (P : op -> Prop) (E : env) (user : string)
    (auth_secret : SSHClient.secret) :
  (forall o, is_credential o = true -> P o) ->
  keeps (grows_by P) (authenticate E user auth_secret).
Proof. intros HP. unfold authenticate. grows. Qed.

Lemma _start_session_split (E : env) (sniffers : list sniffer) (size : Z * Z)
    (script : list tick) :
  SSHClient._start_session E sniffers size script
  = (session_body E sniffers size script;; closing E).
Proof. reflexivity. Qed.

Lemma start_session_split (E : env) (sniffers : list sniffer) (size : Z * Z)
    (user : string) (auth_secret : SSHClient.secret) (script : list tick) :
  SSHClient.start_session E sniffers size user auth_secret script
  = (call E GetTransport;;
     try_finally
       (authenticate E user auth_secret;;
        SSHClient._start_session E sniffers size script)
       (cleanup E)).
Proof. reflexivity. Qed.

(** ** The forced command and the observers *)

Lemma signal_step (E : env) (w : world) :
  exists w1,
    try_except (call E SignalSIGWINCH;; set_winch_handler) (fun _ => mret tt) w
    = (Ret tt, w1) /\
    trace w1 = trace w ++ [SignalSIGWINCH].
Proof.
  unfold try_except. rewrite bind_run. unfold call.
  destruct (raises E (trace w) SignalSIGWINCH); eexists; split; reflexivity.
Qed.

Lemma set_sniffer_logs_run (E : env) (sniffers : list sniffer) (w : world) :
  (forall tr s, raises E tr (CallHook s set_logs) = None \/
                raises E tr (CallHook s set_logs) = Some AttributeError) ->
  SSHClient._set_sniffer_logs E sniffers w
  = (Ret tt, record_all (map (fun s => CallHook s set_logs) sniffers) w).
Proof.
  intros H. unfold SSHClient._set_sniffer_logs. revert w.
  induction sniffers as [|s l IH]; intros w; simpl.
  - by rewrite record_all_nil.
  - rewrite bind_run. unfold try_except, call at 1.
    destruct (H (trace w) s) as [-> | ->]; simpl;
      rewrite IH; by rewrite record_all_cons.
Qed.

Lemma interactive_shell_prefix (E : env) (sniffers : list sniffer)
    (script : list tick) (w w' : world) (r : outcome unit) :
  SSHClient.interactive_shell E sniffers script w = (r, w') ->
  exists tr, trace w' = trace w ++ [Tcgetattr; SetRaw; SetCbreak] ++ tr.
Proof.
  rewrite interactive_shell_run.
  destruct (SSHClient.multiplex E sniffers script (entered w))
    as [r1 w1] eqn:Hm.
  apply multiplex_grows in Hm as (tr & Htr & _). simpl in Htr.
  destruct r1; intros [= <- <-].
  - exists (tr ++ [Tcsetattr (tty w)]). simpl. rewrite Htr.
    by rewrite <- !app_assoc.
  - exists (tr ++ [Tcsetattr (tty w)]). simpl. rewrite Htr.
    by rewrite <- !app_assoc.
  - exists tr. rewrite Htr. by rewrite <- !app_assoc.
Qed.

Lemma session_body_forced (E : env) (sniffers : list sniffer) (size : Z * Z)
    (script : list tick) (command : string) (w w1 : world) (r : outcome unit) :
  environ E !! "SSH_ORIGINAL_COMMAND" = Some command ->
  setup_never_raises E command ->
  session_body E sniffers size script w = (r, w1) ->
  exists tr,
    trace w1
    = trace w ++ [OpenSession; GetPty (fst size) (snd size); SignalSIGWINCH]
      ++ map (fun s => CallHook s set_logs) sniffers
      ++ [ExecCommand command]
      ++ map (fun s => CallHook s (stdin_filter command)) sniffers
      ++ [Tcgetattr; SetRaw; SetCbreak] ++ tr.
Proof.
  intros Henv (Ho & Hg & Hl & Hx & Hs) H.
  unfold session_body in H. destruct size as [columns lines].
  rewrite bind_run, call_ok in H by apply Ho.
  rewrite bind_run, call_ok in H by apply Hg.
  rewrite bind_run in H. unfold set_pty at 1 in H.
  rewrite bind_run in H.
  match type of H with
  | context [try_except _ _ ?W] =>
      destruct (signal_step E W) as (w2 & Hsig & T2); rewrite Hsig in H
  end.
  rewrite bind_run, set_sniffer_logs_run in H by exact Hl.
  rewrite Henv in H.
  rewrite bind_run, call_ok in H by apply Hx.
  unfold SSHClient.run_command in H. rewrite Henv, bind_run in H.
  simpl of_result in H. unfold mret at 1, M_ret at 1 in H.
  rewrite bind_run in H.
  rewrite (for_each_call_ok E (fun s => CallHook s (stdin_filter command)))
    in H by (intros tr s _; apply Hs).
  apply interactive_shell_prefix in H as (tr & Htr).
  exists tr. rewrite Htr. simpl. rewrite T2. simpl.
  by rewrite <- !app_assoc.
Qed.

(** C10, as stated, fails on the order: the command is sent to the remote
    side ([exec_command]) before the observers see it, not after. *)
Lemma command_executed_before_observers_see_it :
  let tr := trace (snd (SSHClient._start_session forced_ls [0%nat] (80, 24)
                          [chunk "" (Ok 0%nat)] world0)) in
  precedes (ExecCommand "ls") (CallHook 0 (stdin_filter "ls")) tr = true /\
  precedes (CallHook 0 (stdin_filter "ls")) (ExecCommand "ls") tr = false.
Proof. vm_compute. split; reflexivity. Qed.

(** C10 (amended): in non-interactive mode, once the remote command has
    been requested with [exec_command] and before the multiplexing loop
    starts (its first call reads the terminal attributes), the full command
    string is delivered exactly once to the stdin hook of every attached
    observer, in attachment order, as long as the set-up calls and these
    hooks do not raise. *)
Theorem command_shown_to_observers (E : env) (sniffers : list sniffer)
    (size : Z * Z) (script : list tick) (command : string) (w w' : world)
    (r : outcome unit) :
  environ E !! "SSH_ORIGINAL_COMMAND" = Some command ->
  setup_never_raises E command ->
  SSHClient._start_session E sniffers size script w = (r, w') ->
  exists tr,
    trace w'
    = trace w ++ [OpenSession; GetPty (fst size) (snd size); SignalSIGWINCH]
      ++ map (fun s => CallHook s set_logs) sniffers
      ++ [ExecCommand command]
      ++ map (fun s => CallHook s (stdin_filter command)) sniffers
      ++ [Tcgetattr; SetRaw; SetCbreak] ++ tr.
Proof.
  intros Henv HE H. rewrite _start_session_split, bind_run in H.
  destruct (session_body E sniffers size script w) as [r1 w1] eqn:Hb.
  apply (session_body_forced E sniffers size script command _ _ _ Henv HE)
    in Hb as (tr & Htr).
  destruct r1 as [[]|e|].
  - apply (closing_keeps (fun _ => True)) in H as (tr2 & Htr2 & _); [|done].
    exists (tr ++ tr2). rewrite Htr2, Htr. by rewrite <- !app_assoc.
  - injection H as <- <-. by exists tr.
  - injection H as <- <-. by exists tr.
Qed.

Lemma command_shown_to_observers_witness :
  environ forced_ls !! "SSH_ORIGINAL_COMMAND" = Some "ls" /\
  setup_never_raises forced_ls "ls" /\
  exists tr,
    trace (snd (SSHClient._start_session forced_ls [0; 1]%nat (80, 24)
                  [chunk "" (Ok 0%nat)] world0))
    = trace world0 ++ [OpenSession; GetPty 80 24; SignalSIGWINCH]
      ++ [CallHook 0 set_logs; CallHook 1 set_logs]
      ++ [ExecCommand "ls"]
      ++ [CallHook 0 (stdin_filter "ls"); CallHook 1 (stdin_filter "ls")]
      ++ [Tcgetattr; SetRaw; SetCbreak] ++ tr.
Proof.
  assert (Henv : environ forced_ls !! "SSH_ORIGINAL_COMMAND" = Some "ls")
    by reflexivity.
  assert (HE : setup_never_raises forced_ls "ls").
  { repeat split; intros; try reflexivity. by left. }
  split; [exact Henv|]. split; [exact HE|].
  apply (command_shown_to_observers forced_ls [0; 1]%nat (80, 24)
           [chunk "" (Ok 0%nat)] "ls" world0 _ (Ret tt) Henv HE).
  vm_compute. reflexivity.
Defined.

(** ** Teardown *)

Lemma closing_run (E : env) (w : world) :
  teardown_never_raises E ->
  closing E w
  = (Ret tt,
     record_all [ChannelClose; SessionEndCallback; TransportClose; SocketClose] w).
Proof.
  intros H. unfold closing, Session.close_session.
  rewrite bind_run, call_ok by (by apply H).
  rewrite bind_run, call_ok by (by apply H).
  rewrite bind_run, call_ok by (by apply H).
  rewrite call_ok by (by apply H).
  unfold record, record_all; simpl. by rewrite <- !app_assoc.
Qed.

Lemma cleanup_run (E : env) (w : world) :
  teardown_never_raises E ->
  cleanup E w
  = (Ret tt, record_all [SessionEndCallback; TransportClose; SocketClose] w).
Proof.
  intros H. unfold cleanup, Session.close_session.
  rewrite bind_run, call_ok by (by apply H).
  rewrite bind_run, call_ok by (by apply H).
  rewrite call_ok by (by apply H).
  unfold record, record_all; simpl. by rewrite <- !app_assoc.
Qed.

Lemma session_ops_not_teardown (o : op) :
  is_session_op o = true -> is_teardown o = false.
Proof. by destruct o. Qed.

Lemma credential_ops_not_teardown (o : op) :
  is_credential o = true -> is_teardown o = false.
Proof. by destruct o. Qed.

Lemma select_ops_app (p : op -> bool) (a b : list op) :
  select_ops p (a ++ b) = select_ops p a ++ select_ops p b.
Proof. unfold select_ops. apply List.filter_app. Qed.

Lemma select_ops_none (p : op -> bool) (tr : list op) :
  Forall (fun o => p o = false) tr -> select_ops p tr = [].
Proof. intros F. by apply (filter_nothing p (fun o => p o = false)). Qed.

(** [_start_session] when no teardown call raises: the closing statements
    run exactly when the multiplexing loop was left normally. *)
Lemma _start_session_shape (E : env) (sniffers : list sniffer) (size : Z * Z)
    (script : list tick) (w w' : world) (r : outcome unit) :
  teardown_never_raises E ->
  SSHClient._start_session E sniffers size script w = (r, w') ->
  exists tr,
    Forall (fun o => is_teardown o = false) tr /\
    ((r = Ret tt /\
      trace w' = trace w ++ tr ++
                 [ChannelClose; SessionEndCallback; TransportClose; SocketClose]) \/
     (r <> Ret tt /\ trace w' = trace w ++ tr)).
Proof.
  intros HE H. rewrite _start_session_split, bind_run in H.
  destruct (session_body E sniffers size script w) as [r1 w1] eqn:Hb.
  apply (session_body_keeps (fun o => is_teardown o = false)) in Hb
    as (tr & Htr & F); [|apply session_ops_not_teardown].
  exists tr. split; [exact F|].
  destruct r1 as [[]|e|].
  - rewrite closing_run in H by exact HE. injection H as <- <-.
    left. split; [reflexivity|]. simpl. rewrite Htr. by rewrite <- app_assoc.
  - injection H as <- <-. by right.
  - injection H as <- <-. by right.
Qed.

(** [SSHClient.start_session] when no teardown call raises. *)
Lemma start_session_shape (E : env) (sniffers : list sniffer) (size : Z * Z)
    (user : string) (auth_secret : SSHClient.secret) (script : list tick)
    (w w' : world) (r : outcome unit) :
  teardown_never_raises E ->
  raises E (trace w) GetTransport = None ->
  SSHClient.start_session E sniffers size user auth_secret script w = (r, w') ->
  r <> Wait ->
  exists tr,
    Forall (fun o => is_teardown o = false) tr /\
    ((r = Ret tt /\
      trace w' = trace w ++ tr ++
                 [ChannelClose; SessionEndCallback; TransportClose; SocketClose;
                  SessionEndCallback; TransportClose; SocketClose]) \/
     ((exists e, r = Exc e) /\
      trace w' = trace w ++ tr ++
                 [SessionEndCallback; TransportClose; SocketClose])).
Proof.
  intros HE Hg H Hr. rewrite start_session_split, bind_run in H.
  rewrite call_ok in H by exact Hg.
  unfold try_finally in H. rewrite bind_run in H.
  destruct (authenticate E user auth_secret (record GetTransport w))
    as [ra wa] eqn:Ha.
  apply (authenticate_keeps (fun o => is_teardown o = false)) in Ha
    as (tra & Htra & Fa); [|apply credential_ops_not_teardown].
  simpl in Htra.
  destruct ra as [[]|e|].
  - destruct (SSHClient._start_session E sniffers size script wa)
      as [r1 w1] eqn:Hs.
    apply (_start_session_shape E sniffers size script _ _ _ HE) in Hs
      as (tr & F & [[-> Htr] | [Hne Htr]]).
    + rewrite cleanup_run in H by exact HE. injection H as <- <-.
      exists (GetTransport :: tra ++ tr). split.
      * constructor; [reflexivity | by apply Forall_app].
      * left. split; [reflexivity|]. simpl. rewrite Htr, Htra.
        rewrite <- ?app_assoc. simpl. by rewrite <- ?app_assoc.
    + destruct r1 as [[]|e|]; [done | | by injection H as <-].
      rewrite cleanup_run in H by exact HE. injection H as <- <-.
      exists (GetTransport :: tra ++ tr). split.
      * constructor; [reflexivity | by apply Forall_app].
      * right. split; [by exists e|]. simpl. rewrite Htr, Htra.
        rewrite <- ?app_assoc. simpl. by rewrite <- ?app_assoc.
  - rewrite cleanup_run in H by exact HE. injection H as <- <-.
    exists (GetTransport :: tra). split.
    + by constructor.
    + right. split; [by exists e|]. simpl. rewrite Htra.
      rewrite <- ?app_assoc. simpl. by rewrite <- ?app_assoc.
  - by injection H as <-.
Qed.

Lemma start_session_grows (P : op -> Prop) (E : env) (sniffers : list sniffer)
    (size : Z * Z) (user : string) (auth_secret : SSHClient.secret)
    (script : list tick) :
  (forall o, P o) ->
  keeps (grows_by P)
    (SSHClient.start_session E sniffers size user auth_secret script).
Proof.
  intros HP. rewrite start_session_split.
  apply keeps_bind; [apply grows_by_trans | by apply keeps_call | intros _].
  apply keeps_try_finally; [apply grows_by_trans | | by apply cleanup_keeps].
  apply keeps_bind; [apply grows_by_trans | by apply authenticate_keeps |].
  intros _. rewrite _start_session_split.
  apply keeps_bind; [apply grows_by_trans | by apply session_body_keeps |].
  intros _. by apply closing_keeps.
Qed.

Lemma cleanup_callback_raises (E : env) (e0 : exn) (w : world) :
  (forall tr, raises E tr SessionEndCallback = Some e0) ->
  cleanup E w = (Exc e0, record SessionEndCallback w).
Proof.
  intros H. unfold cleanup, Session.close_session.
  by rewrite bind_run, (call_raises E _ e0).
Qed.

Lemma closing_callback_raises (E : env) (e0 : exn) (w w' : world)
    (r : outcome unit) :
  (forall tr, raises E tr SessionEndCallback = Some e0) ->
  closing E w = (r, w') ->
  r <> Ret tt /\ grows_by leaves_connection_open w w'.
Proof.
  intros H. unfold closing, Session.close_session.
  rewrite bind_run. unfold call at 1.
  destruct (raises E (trace w) ChannelClose) as [e|].
  - intros [= <- <-]. split; [done|].
    apply grows_by_record. by split.
  - rewrite bind_run, (call_raises E _ e0) by apply H.
    intros [= <- <-]. split; [done|].
    exists [ChannelClose; SessionEndCallback]. split.
    + simpl. by rewrite <- app_assoc.
    + repeat constructor; done.
Qed.

(** When the completion callback raises, the session ends with that
    exception and neither the transport nor the socket is closed. *)
Lemma start_session_callback_raises (E : env) (sniffers : list sniffer)
    (size : Z * Z) (user : string) (auth_secret : SSHClient.secret)
    (script : list tick) (e0 : exn) (w w' : world) (r : outcome unit) :
  (forall tr, raises E tr SessionEndCallback = Some e0) ->
  raises E (trace w) GetTransport = None ->
  SSHClient.start_session E sniffers size user auth_secret script w = (r, w') ->
  r <> Wait ->
  r = Exc e0 /\ grows_by leaves_connection_open w w'.
Proof.
  intros Hcb Hg H Hr. rewrite start_session_split, bind_run in H.
  rewrite call_ok in H by exact Hg.
  assert (G0 : grows_by leaves_connection_open w (record GetTransport w))
    by (by apply grows_by_record).
  unfold try_finally in H.
  destruct ((authenticate E user auth_secret;;
             SSHClient._start_session E sniffers size script)
              (record GetTransport w)) as [r1 w1] eqn:Hb.
  assert (G1 : grows_by leaves_connection_open (record GetTransport w) w1).
  { rewrite bind_run in Hb.
    destruct (authenticate E user auth_secret (record GetTransport w))
      as [ra wa] eqn:Ha.
    apply (authenticate_keeps leaves_connection_open) in Ha;
      [|intros o Ho; by destruct o].
    destruct ra as [[]|e|]; [|by injection Hb as <- <- ..].
    eapply grows_by_trans; [exact Ha|].
    rewrite _start_session_split, bind_run in Hb.
    destruct (session_body E sniffers size script wa) as [rb wb] eqn:Hsb.
    apply (session_body_keeps leaves_connection_open) in Hsb;
      [|intros o Ho; by destruct o].
    destruct rb as [[]|e|]; [|by injection Hb as <- <- ..].
    eapply grows_by_trans; [exact Hsb|].
    by apply (closing_callback_raises E e0 _ _ _ Hcb) in Hb as [_ Hb]. }
  assert (G2 : grows_by leaves_connection_open w1 (record SessionEndCallback w1))
    by (by apply grows_by_record).
  destruct r1 as [[]|e|];
    try (rewrite (cleanup_callback_raises E e0) in H by exact Hcb;
         injection H as <- <-; split; [reflexivity|];
         eapply grows_by_trans; [exact G0|];
         eapply grows_by_trans; [exact G1 | exact G2]).
  by injection H as <-.
Qed.

(** C5, as the specification states it, fails. In a session that ends
    normally the completion callback runs before the transport and the
    socket are closed, and the whole sequence runs a second time in the
    [finally] block; and when the callback raises, the transport and the
    socket are not closed at all. *)
Lemma teardown_out_of_order :
  let good := SSHClient.start_session calm [0%nat] (80, 24) "alice"
                (SSHClient.Key "id_rsa") short_session world0 in
  let bad := SSHClient.start_session callback_fails [0%nat] (80, 24) "alice"
               (SSHClient.Key "id_rsa") short_session world0 in
  fst good = Ret tt /\
  select_ops is_teardown (trace (snd good))
  = [ChannelClose; SessionEndCallback; TransportClose; SocketClose;
     SessionEndCallback; TransportClose; SocketClose] /\
  fst bad = Exc (RuntimeError "log") /\
  select_ops is_teardown (trace (snd bad))
  = [ChannelClose; SessionEndCallback; SessionEndCallback].
Proof. vm_compute. repeat split; reflexivity. Qed.

(** C5 (amended): on every exit path of a session whose transport was
    obtained, the [finally] block of [start_session] attempts, in this
    order, the completion callback, the close of the transport and the
    close of the socket; when the multiplexing loop was left normally,
    [_start_session] has before that closed the channel, invoked the
    callback, closed the transport and closed the socket. The callback thus
    comes before the transport and the socket are closed. A step that raises
    is neither caught nor logged: it ends the sequence, so that when the
    callback raises neither the transport nor the socket is closed. *)
Theorem teardown_order (E : env) (sniffers : list sniffer) (size : Z * Z)
    (user : string) (auth_secret : SSHClient.secret) (script : list tick)
    (w w' : world) (r : outcome unit) :
  raises E (trace w) GetTransport = None ->
  SSHClient.start_session E sniffers size user auth_secret script w = (r, w') ->
  r <> Wait ->
  exists tr,
    trace w' = trace w ++ tr /\
    (teardown_never_raises E ->
     (r = Ret tt /\
      select_ops is_teardown tr
      = [ChannelClose; SessionEndCallback; TransportClose; SocketClose;
         SessionEndCallback; TransportClose; SocketClose]) \/
     ((exists e, r = Exc e) /\
      select_ops is_teardown tr
      = [SessionEndCallback; TransportClose; SocketClose])) /\
    (forall e0,
       (forall tr', raises E tr' SessionEndCallback = Some e0) ->
       r = Exc e0 /\ ~ In TransportClose tr /\ ~ In SocketClose tr).
Proof.
  intros Hg H Hr.
  destruct (start_session_grows (fun _ => True) E sniffers size user
              auth_secret script (fun _ => I) _ _ _ H) as (tr & Htr & _).
  exists tr. split; [exact Htr|]. split.
  - intros HE.
    destruct (start_session_shape E sniffers size user auth_secret script
                w w' r HE Hg H Hr) as (tr0 & F & [[-> Ht] | [He Ht]]);
      rewrite Htr in Ht; apply app_inv_head in Ht; subst tr;
      rewrite select_ops_app, (select_ops_none _ tr0 F); [left | right];
      by split.
  - intros e0 Hcb.
    destruct (start_session_callback_raises E sniffers size user auth_secret
                script e0 w w' r Hcb Hg H Hr) as (-> & tr0 & Ht & F).
    rewrite Htr in Ht. apply app_inv_head in Ht. subst tr0.
    split; [reflexivity|].
    rewrite List.Forall_forall in F.
    split; intros Hin; apply F in Hin; destruct Hin as [H1 H2]; done.
Qed.

Lemma teardown_order_witness :
  let run := SSHClient.start_session callback_fails [0%nat] (80, 24) "alice"
               (SSHClient.Key "id_rsa") short_session world0 in
  raises callback_fails (trace world0) GetTransport = None /\
  fst run = Exc (RuntimeError "log") /\
  ~ In TransportClose (trace (snd run)) /\
  ~ In SocketClose (trace (snd run)).
Proof.
  assert (Hg : raises callback_fails (trace world0) GetTransport = None)
    by reflexivity.
  split; [exact Hg|].
  destruct (teardown_order callback_fails [0%nat] (80, 24) "alice"
              (SSHClient.Key "id_rsa") short_session world0
              (snd (SSHClient.start_session callback_fails [0%nat] (80, 24)
                      "alice" (SSHClient.Key "id_rsa") short_session world0))
              (Exc (RuntimeError "log")) Hg)
    as (tr & Htr & _ & Hcb).
  - vm_compute. reflexivity.
  - discriminate.
  - destruct (Hcb (RuntimeError "log")) as (_ & H1 & H2);
      [intros tr'; reflexivity|].
    split; [vm_compute; reflexivity|].
    simpl. rewrite Htr. simpl. by split.
Defined.

(** C6, as the specification states it, fails. A session that ends
    normally invokes the completion callback twice, and the first time the
    transport and the socket are still to be closed; a session that ends by
    an exception (here the channel cannot be opened) invokes it once,
    before the transport and the socket are closed; and closing a session
    twice leaves a trace that closing it once does not leave. *)
Lemma callback_invoked_twice :
  let good := SSHClient.start_session calm [0%nat] (80, 24) "alice"
                (SSHClient.Key "id_rsa") short_session world0 in
  let bad := SSHClient.start_session open_fails [0%nat] (80, 24) "alice"
               (SSHClient.Key "id_rsa") short_session world0 in
  fst good = Ret tt /\
  select_ops is_teardown (trace (snd good))
  = [ChannelClose; SessionEndCallback; TransportClose; SocketClose;
     SessionEndCallback; TransportClose; SocketClose] /\
  fst bad = Exc SSHException /\
  select_ops is_teardown (trace (snd bad))
  = [SessionEndCallback; TransportClose; SocketClose] /\
  trace (snd ((Session.close_session calm;; Session.close_session calm) world0))
  <> trace (snd (Session.close_session calm world0)).
Proof. vm_compute. repeat split; try reflexivity. discriminate. Qed.

(** C6 (amended): [close_session] has no guard, every call of it invokes
    the completion callback. Calling it twice raises no error (it closes
    nothing) but invokes the callback twice, which calling it once does
    not. In a session whose transport was obtained and whose teardown calls
    do not raise, the callback is invoked twice when the multiplexing loop
    was left normally: by [_start_session], once the channel is closed and
    before the transport and the socket are closed, and once more by the
    [finally] block of [start_session], which then closes the transport and
    the socket again. When the session ends by an exception the callback is
    invoked once, by the [finally] block, before the transport and the
    socket are closed. *)
Theorem completion_callback_calls (E : env) (sniffers : list sniffer)
    (size : Z * Z) (user : string) (auth_secret : SSHClient.secret)
    (script : list tick) (w w' : world) (r : outcome unit) :
  teardown_never_raises E ->
  raises E (trace w) GetTransport = None ->
  SSHClient.start_session E sniffers size user auth_secret script w = (r, w') ->
  r <> Wait ->
  Session.close_session E w = (Ret tt, record_all [SessionEndCallback] w) /\
  (Session.close_session E;; Session.close_session E) w
  = (Ret tt, record_all [SessionEndCallback; SessionEndCallback] w) /\
  exists tr,
    Forall (fun o => is_teardown o = false) tr /\
    ((r = Ret tt /\
      trace w' = trace w ++ tr ++
                 [ChannelClose; SessionEndCallback; TransportClose; SocketClose;
                  SessionEndCallback; TransportClose; SocketClose]) \/
     ((exists e, r = Exc e) /\
      trace w' = trace w ++ tr ++
                 [SessionEndCallback; TransportClose; SocketClose])).
Proof.
  intros HE Hg H Hr.
  assert (Hc : forall w0, Session.close_session E w0
                          = (Ret tt, record SessionEndCallback w0)).
  { intros w0. unfold Session.close_session. by rewrite call_ok by (by apply HE). }
  split; [apply Hc|]. split.
  { rewrite bind_run, !Hc. unfold record, record_all; simpl.
    by rewrite <- app_assoc. }
  exact (start_session_shape E sniffers size user auth_secret script
           w w' r HE Hg H Hr).
Qed.

Lemma completion_callback_calls_witness :
  let run := SSHClient.start_session calm [0%nat] (80, 24) "alice"
               (SSHClient.Key "id_rsa") short_session world0 in
  teardown_never_raises calm /\
  raises calm (trace world0) GetTransport = None /\
  fst run = Ret tt /\
  exists tr,
    Forall (fun o => is_teardown o = false) tr /\
    ((Ret tt = Ret tt /\
      trace (snd run)
      = trace world0 ++ tr ++
        [ChannelClose; SessionEndCallback; TransportClose; SocketClose;
         SessionEndCallback; TransportClose; SocketClose]) \/
     ((exists e, Ret tt = Exc e) /\
      trace (snd run)
      = trace world0 ++ tr ++
        [SessionEndCallback; TransportClose; SocketClose])).
Proof.
  assert (HE : teardown_never_raises calm) by (intros tr o _; reflexivity).
  assert (Hg : raises calm (trace world0) GetTransport = None) by reflexivity.
  split; [exact HE|]. split; [exact Hg|]. split; [vm_compute; reflexivity|].
  apply (completion_callback_calls calm [0%nat] (80, 24) "alice"
           (SSHClient.Key "id_rsa") short_session world0 _ (Ret tt) HE Hg).
  - vm_compute. reflexivity.
  - discriminate.
Defined.

(** ** Credentials *)

Lemma session_ops_not_credential (o : op) :
  is_session_op o = true -> is_credential o = false.
Proof. by destruct o. Qed.

Lemma teardown_not_credential (o : op) :
  is_teardown o = true -> is_credential o = false.
Proof. by destruct o. Qed.

(** Once [authenticate] is over, no credential call is made any more. *)
Lemma after_authenticate (E : env) (sniffers : list sniffer) (size : Z * Z)
    (user : string) (auth_secret : SSHClient.secret) (script : list tick)
    (w w' : world) (r : outcome unit) :
  try_finally
    (authenticate E user auth_secret;;
     SSHClient._start_session E sniffers size script)
    (cleanup E) w = (r, w') ->
  exists ra wa,
    authenticate E user auth_secret w = (ra, wa) /\
    grows_by (fun o => is_credential o = false) wa w'.
Proof.
  set (P := fun o => is_credential o = false).
  assert (Hs : keeps (grows_by P) (SSHClient._start_session E sniffers size script)).
  { rewrite _start_session_split.
    apply keeps_bind; [apply grows_by_trans | | intros _].
    - apply session_body_keeps, session_ops_not_credential.
    - apply closing_keeps, teardown_not_credential. }
  assert (Hc : keeps (grows_by P) (cleanup E))
    by apply cleanup_keeps, teardown_not_credential.
  unfold try_finally. rewrite bind_run.
  destruct (authenticate E user auth_secret w) as [ra wa].
  intros H. exists ra, wa. split; [reflexivity|].
  destruct ra as [[]|e|].
  - destruct (SSHClient._start_session E sniffers size script wa)
      as [r1 w1] eqn:H1. apply Hs in H1.
    destruct r1 as [[]|e|]; [| |by injection H as <- <-];
      (destruct (cleanup E w1) as [rc wc] eqn:H2; apply Hc in H2;
       assert (w' = wc) as -> by (destruct rc; by injection H as <- <-);
       by eapply grows_by_trans).
  - destruct (cleanup E wa) as [rc wc] eqn:H2. apply Hc in H2.
    assert (w' = wc) as -> by (destruct rc; by injection H as <- <-).
    exact H2.
  - injection H as <- <-. apply grows_by_refl.
Qed.

Lemma authenticate_accepted (E : env) (user : string) (k : pkey) (w : world) :
  key_accepted E user k ->
  authenticate E user (SSHClient.Key k) w
  = (Ret tt, record (AuthPublickey user k) w).
Proof.
  intros H. unfold authenticate, try_except. by rewrite call_ok by apply H.
Qed.

Lemma authenticate_rejected (E : env) (user : string) (k : pkey) (w : world) :
  key_rejected E user k ->
  (forall tr, raises E tr Getpass = None) ->
  exists ra,
    authenticate E user (SSHClient.Key k) w
    = (ra, record_all [AuthPublickey user k; Getpass;
                       AuthPassword user (typed_secret E)] w).
Proof.
  intros H Hp. unfold authenticate, try_except.
  rewrite (call_raises E _ AuthenticationException) by apply H.
  rewrite bind_run, call_ok by apply Hp.
  unfold call. destruct (raises E _ (AuthPassword _ _));
    eexists; unfold record, record_all; simpl; by rewrite <- !app_assoc.
Qed.

(** The credential calls of [SSHClient.start_session] for a key. *)
Lemma client_credentials (E : env) (sniffers : list sniffer) (size : Z * Z)
    (user : string) (k : pkey) (script : list tick) (w w' : world)
    (r : outcome unit) :
  credentials_reachable E ->
  SSHClient.start_session E sniffers size user (SSHClient.Key k) script w
  = (r, w') ->
  exists tr,
    trace w' = trace w ++ tr /\
    (key_accepted E user k ->
     select_ops is_credential tr = [AuthPublickey user k]) /\
    (key_rejected E user k ->
     select_ops is_credential tr
     = [AuthPublickey user k; Getpass; AuthPassword user (typed_secret E)]).
Proof.
  intros (_ & Hg & Hp) H. rewrite start_session_split, bind_run in H.
  rewrite call_ok in H by apply Hg.
  apply after_authenticate in H as (ra & wa & Ha & (tr & Htr & F)).
  apply select_ops_none in F.
  assert (Hw : exists tra, trace wa = trace w ++ GetTransport :: tra /\
               (key_accepted E user k -> tra = [AuthPublickey user k]) /\
               (key_rejected E user k ->
                tra = [AuthPublickey user k; Getpass;
                       AuthPassword user (typed_secret E)])).
  { apply (authenticate_keeps (fun _ => True)) in Ha as Hgrow; [|done].
    destruct Hgrow as (tra & Htra & _). simpl in Htra.
    exists tra. split; [rewrite Htra; by rewrite <- app_assoc|].
    split; intros Hk.
    - rewrite authenticate_accepted in Ha by exact Hk.
      injection Ha as _ <-. simpl in Htra. by apply app_inv_head in Htra.
    - destruct (authenticate_rejected E user k (record GetTransport w) Hk Hp)
        as (ra' & Hrej).
      rewrite Hrej in Ha. injection Ha as _ <-. simpl in Htra.
      rewrite <- ?app_assoc in Htra.
      apply app_inv_head in Htra. apply (app_inv_head [GetTransport]) in Htra.
      by symmetry. }
  destruct Hw as (tra & Htra & Hacc & Hrej).
  exists (GetTransport :: tra ++ tr). split.
  - rewrite Htr, Htra. by rewrite <- app_assoc.
  - split; intros Hk;
      [rewrite (Hacc Hk) | rewrite (Hrej Hk)];
      change (GetTransport :: ?l ++ tr) with ([GetTransport] ++ l ++ tr);
      rewrite !select_ops_app, F; reflexivity.
Qed.

(** C4, as the specification states it, fails. The agent offers the keys
    [k1] and [k2], the remote side rejects [k1] and would accept [k2], and a
    private-key file is there: only [k1] is tried, the file is not read,
    and the user is prompted for a password. *)
Lemma rejected_agent_key_goes_to_password :
  let run := SSHSession.start_session two_agent_keys [0%nat] (80, 24) "alice"
               short_session world0 in
  raises two_agent_keys [] (AuthPublickey "alice" "k2") = None /\
  key_file two_agent_keys = Ok "id_rsa" /\
  select_ops is_credential (trace (snd run))
  = [AgentGetKeys; AuthPublickey "alice" "k1"; Getpass;
     AuthPassword "alice" "secret"].
Proof. vm_compute. repeat split; reflexivity. Qed.

(** C4 (amended): the credential is chosen before the connection is
    authenticated: the first key of the agent when the agent offers any key
    (its other keys are never tried and the private-key file is not read),
    otherwise the key of the private-key file (when the file cannot be
    loaded the attempt ends with an exception, without a prompt). That one
    key is tried; if the remote side accepts it no password is prompted; if
    the remote side rejects it the user is prompted for a password, which
    is tried next. *)
Theorem credential_chain (E : env) (sniffers : list sniffer) (size : Z * Z)
    (user : string) (script : list tick) (w w' : world) (r : outcome unit) :
  credentials_reachable E ->
  SSHSession.start_session E sniffers size user script w = (r, w') ->
  exists tr,
    trace w' = trace w ++ tr /\
    let prompt := [Getpass; AuthPassword user (typed_secret E)] in
    (forall k ks,
       agent_keys E = k :: ks ->
       (key_accepted E user k ->
        select_ops is_credential tr = [AgentGetKeys; AuthPublickey user k]) /\
       (key_rejected E user k ->
        select_ops is_credential tr
        = [AgentGetKeys; AuthPublickey user k] ++ prompt)) /\
    (forall k,
       agent_keys E = [] -> key_file E = Ok k ->
       (key_accepted E user k ->
        select_ops is_credential tr
        = [AgentGetKeys; ReadKeyFile; AuthPublickey user k]) /\
       (key_rejected E user k ->
        select_ops is_credential tr
        = [AgentGetKeys; ReadKeyFile; AuthPublickey user k] ++ prompt)) /\
    (forall e,
       agent_keys E = [] -> key_file E = Raise e ->
       r = Exc InvalidPrivateKey /\ tr = [AgentGetKeys; ReadKeyFile]).
Proof.
  intros HE H. pose proof HE as (Ha & _ & _).
  unfold SSHSession.start_session, User.get_priv_key in H.
  rewrite !bind_run, call_ok in H by apply Ha.
  assert (Hc : forall k w1 tr1,
             trace w1 = trace w ++ tr1 ->
             try_except
               (SSHClient.start_session E sniffers size user (SSHClient.Key k)
                  script) (fun _ => mret tt) w1 = (r, w') ->
             exists tr,
               trace w' = trace w ++ tr /\
               (key_accepted E user k ->
                select_ops is_credential tr
                = select_ops is_credential tr1 ++ [AuthPublickey user k]) /\
               (key_rejected E user k ->
                select_ops is_credential tr
                = select_ops is_credential tr1 ++
                  [AuthPublickey user k; Getpass;
                   AuthPassword user (typed_secret E)])).
  { intros k w1 tr1 H1 Ht. unfold try_except in Ht.
    destruct (SSHClient.start_session E sniffers size user (SSHClient.Key k)
                script w1) as [r1 w2] eqn:Hs.
    apply (client_credentials E sniffers size user k script _ _ _ HE) in Hs
      as (tr & Htr & Hacc & Hrej).
    assert (w' = w2) as -> by (destruct r1; by injection Ht as <- <-).
    exists (tr1 ++ tr). split; [rewrite Htr, H1; by rewrite <- app_assoc|].
    split; intros Hk; rewrite select_ops_app;
      [by rewrite (Hacc Hk) | by rewrite (Hrej Hk)]. }
  destruct (agent_keys E) as [|k0 ks] eqn:Hkeys.
  - rewrite bind_run in H. unfold try_except at 1, answer in H.
    destruct (key_file E) as [k|e] eqn:Hfile; simpl of_result in H.
    + unfold mret at 1, M_ret at 1 in H. unfold mret at 1, M_ret at 1 in H.
      apply (Hc k _ [AgentGetKeys; ReadKeyFile]) in H
        as (tr & Htr & Hacc & Hrej);
        [|simpl; by rewrite <- app_assoc].
      exists tr. split; [exact Htr|]. split; [|split].
      * intros k' ks' [=].
      * intros k' _ [= <-]. split; [exact Hacc | exact Hrej].
      * intros e _ [=].
    + unfold raise at 1 in H. unfold raise at 1 in H.
      injection H as <- <-.
      exists [AgentGetKeys; ReadKeyFile].
      split; [simpl; by rewrite <- app_assoc|]. split; [|split].
      * intros k' ks' [=].
      * intros k' _ [=].
      * intros e' _ _. by split.
  - unfold mret at 1, M_ret at 1 in H.
    apply (Hc k0 _ [AgentGetKeys]) in H as (tr & Htr & Hacc & Hrej);
      [|reflexivity].
    exists tr. split; [exact Htr|]. split; [|split].
    + intros k' ks' [= <- <-]. split; [exact Hacc | exact Hrej].
    + intros k' [=].
    + intros e [=].
Qed.

Lemma credential_chain_witness :
  let run := SSHSession.start_session two_agent_keys [0%nat] (80, 24) "alice"
               short_session world0 in
  credentials_reachable two_agent_keys /\
  key_rejected two_agent_keys "alice" "k1" /\
  exists tr,
    trace (snd run) = trace world0 ++ tr /\
    select_ops is_credential tr
    = [AgentGetKeys; AuthPublickey "alice" "k1"; Getpass;
       AuthPassword "alice" "secret"].
Proof.
  assert (HE : credentials_reachable two_agent_keys)
    by (repeat split; intros; reflexivity).
  assert (Hk : key_rejected two_agent_keys "alice" "k1")
    by (intros tr; reflexivity).
  split; [exact HE|]. split; [exact Hk|].
  destruct (credential_chain two_agent_keys [0%nat] (80, 24) "alice"
              short_session world0
              (snd (SSHSession.start_session two_agent_keys [0%nat] (80, 24)
                      "alice" short_session world0))
              (Ret tt) HE) as (tr & Htr & Hagent & _).
  - vm_compute. reflexivity.
  - exists tr. split; [exact Htr|].
    exact (proj2 (Hagent "k1" ["k2"] eq_refl) Hk).
Defined.

(** ** IdPFactory.getIdP *)

(** C8, as the specification states it, fails: a provider name that cannot
    be resolved makes [getIdP] raise the import machinery's [ImportError],
    not [ProviderNotFound]. *)
Lemma getIdP_unresolved_not_typed :
  IdPFactory.getIdP ∅ "ldap" = Raise ImportError /\
  IdPFactory.getIdP ∅ "ldap" <> Raise ProviderNotFound.
Proof. split; [reflexivity | discriminate]. Qed.

(** C8 (amended): for every provider name, [getIdP] returns the class named
    like the provider in the module [idp.<name>], constructing nothing; when
    that module is not found it raises [ImportError], when the module lacks
    the attribute it raises [AttributeError]; it raises nothing else, so
    neither [ProviderNotFound] nor [ProviderLoadError]. *)
Theorem getIdP_outcomes (modules : gmap string (gmap string IdPFactory.idp_class))
    (choice : string) :
  match IdPFactory.getIdP modules choice with
  | Ok c =>
      exists m, modules !! ("idp." +:+ choice) = Some m /\ m !! choice = Some c
  | Raise e =>
      (e = ImportError /\ modules !! ("idp." +:+ choice) = None) \/
      (e = AttributeError /\
       exists m, modules !! ("idp." +:+ choice) = Some m /\ m !! choice = None)
  end.
Proof.
  unfold IdPFactory.getIdP, IdPFactory.import_module, IdPFactory.getattr.
  destruct (modules !! ("idp." +:+ choice)) as [m|] eqn:Hm.
  - destruct (m !! choice) as [c|] eqn:Hc.
    + exists m. by split.
    + right. split; [done|]. exists m. by split.
  - left. by split.
Qed.

(** ** The dispatch of [main] *)

Example dispatch_host_and_port :
  Aker.dispatch {[ Aker.SSH_ORIGINAL_COMMAND := "host=db1 port=2222" ]}
  = Ok (Aker.Proxy "db1" 2222).
Proof. vm_compute. reflexivity. Qed.

Example dispatch_host_only :
  Aker.dispatch {[ Aker.SSH_ORIGINAL_COMMAND := "host=db1" ]}
  = Ok (Aker.Proxy "db1" 22).
Proof. vm_compute. reflexivity. Qed.

Example dispatch_no_command : Aker.dispatch ∅ = Ok Aker.Interactive.
Proof. vm_compute. reflexivity. Qed.

Lemma scan_terms_last (terms : list string) (host : option string)
    (port : Z + string) :
  Aker.scan_terms terms host port
  = (match last_value "host=" terms with Some v => Some v | None => host end,
     match last_value "port=" terms with Some v => inr v | None => port end).
Proof.
  unfold last_value. revert host port.
  induction terms as [|t terms IH]; intros host port; [reflexivity|].
  cbn [Aker.scan_terms List.filter]. rewrite IH.
  f_equal.
  - destruct (Py.startswith "host=" t); [|reflexivity].
    destruct (List.filter (Py.startswith "host=") terms) as [|t' l] eqn:Hf;
      [reflexivity|].
    change (last (t :: t' :: l)) with (last (t' :: l)).
    destruct (last (t' :: l)) eqn:Hl; [reflexivity|].
    by apply last_None in Hl.
  - destruct (Py.startswith "port=" t); [|reflexivity].
    destruct (List.filter (Py.startswith "port=") terms) as [|t' l] eqn:Hf;
      [reflexivity|].
    change (last (t :: t' :: l)) with (last (t' :: l)).
    destruct (last (t' :: l)) eqn:Hl; [reflexivity|].
    by apply last_None in Hl.
Qed.

Lemma startswith_app (p s rest : string) :
  Py.startswith p s = true -> Py.startswith p (s +:+ rest) = true.
Proof.
  revert s. induction p as [|a p IH]; intros s H; [reflexivity|].
  destruct s as [|b s]; [discriminate|].
  simpl in H. apply andb_true_iff in H as [Hab Hp].
  change (String b s +:+ rest) with (String b (s +:+ rest)).
  simpl. rewrite Hab. by apply IH.
Qed.

(** The first term of a split is a prefix of the string. *)
Lemma split_head (sep : ascii) (s : string) :
  exists t ts rest, Py.split sep s = t :: ts /\ s = t +:+ rest.
Proof.
  induction s as [|c s (t & ts & rest & Hs & Hr)].
  - by exists "", [], "".
  - simpl. destruct (Ascii.eqb c sep).
    + by exists "", (Py.split sep s), (String c s).
    + rewrite Hs. exists (String c t), ts, rest. split; [reflexivity|].
      change (String c t +:+ rest) with (String c (t +:+ rest)). by rewrite <- Hr.
Qed.

(** A term that starts with [p] makes [p] occur in the string. *)
Lemma term_contains (sep : ascii) (p s t : string) :
  In t (Py.split sep s) -> Py.startswith p t = true -> Py.contains p s = true.
Proof.
  revert t. induction s as [|c s IH]; intros t Hin Hp.
  - destruct Hin as [<-|[]]. simpl. by rewrite Hp.
  - simpl in Hin. destruct (Ascii.eqb c sep).
    + destruct Hin as [<-|Hin].
      * destruct p; [reflexivity | discriminate].
      * cbn [Py.contains]. rewrite (IH t Hin Hp). apply orb_true_r.
    + destruct (split_head sep s) as (t0 & ts & rest & Hs & Hr).
      rewrite Hs in Hin, IH. destruct Hin as [<-|Hin].
      * cbn [Py.contains]. rewrite Hr.
        change (String c (t0 +:+ rest)) with (String c t0 +:+ rest).
        by rewrite (startswith_app p (String c t0) rest Hp).
      * cbn [Py.contains]. rewrite (IH t (or_intror Hin) Hp). apply orb_true_r.
Qed.

(** A command in which [host=] occurs nowhere sends the gateway to the
    host picker. *)
Lemma dispatch_without_host (environ : gmap string string) :
  Py.contains "host="
    (Py.strip (default "" (environ !! Aker.SSH_ORIGINAL_COMMAND))) = false ->
  Aker.dispatch environ = Ok Aker.Interactive.
Proof. intros H. unfold Aker.dispatch. by rewrite H. Qed.

(** A command with a term that starts with [host=] creates a session to
    the host of the last such term, on the port of the last term that
    starts with [port=], or on port 22 when there is none. *)
Lemma dispatch_with_host_term (environ : gmap string string) (t : string) :
  In t (terms_of environ) -> Py.startswith "host=" t = true ->
  exists host,
    last_value "host=" (terms_of environ) = Some host /\
    Aker.dispatch environ
    = match last_value "port=" (terms_of environ) with
      | None => Ok (Aker.Proxy host 22)
      | Some port =>
          match Py.int port with
          | Ok n => Ok (Aker.Proxy host n)
          | Raise e => Raise e
          end
      end.
Proof.
  intros Hin Ht. unfold terms_of in *. unfold Aker.dispatch.
  rewrite (term_contains " "%char "host=" _ t Hin Ht).
  rewrite scan_terms_last.
  assert (Hl : exists host,
             last_value "host="
               (Py.split " "%char
                  (Py.strip (default "" (environ !! Aker.SSH_ORIGINAL_COMMAND))))
             = Some host).
  { unfold last_value.
    destruct (last (List.filter (Py.startswith "host=") _)) as [t'|] eqn:Hl.
    - by exists (Py.slice_from 5 t').
    - apply last_None in Hl.
      assert (Hf : In t (List.filter (Py.startswith "host=")
                           (Py.split " "%char
                              (Py.strip (default "" (environ !! Aker.SSH_ORIGINAL_COMMAND))))))
        by (apply List.filter_In; by split).
      rewrite Hl in Hf. destruct Hf. }
  destruct Hl as (host & Hhost). exists host. split; [exact Hhost|].
  rewrite Hhost.
  destruct (last_value "port=" _) as [port|]; reflexivity.
Qed.

(** With the forced command [host=db1 port=2222], [main] connects to
    [db1] on port 2222 before anything else and stops the observer last. *)
Example main_connects_to_target :
  let run := Aker.main forced_proxy (80, 24) "alice" short_session world0 in
  fst run = Ret tt /\
  head (trace (snd run)) = Some (Connect "db1" 2222) /\
  last (trace (snd run)) = Some (CallHook 0 stop).
Proof. vm_compute. repeat split; reflexivity. Qed.

(** C7: the command [ls --host=db1] has no term that starts with [host=],
    yet [host=] occurs in it: [main] takes the proxy branch, finds no host
    and fails its own assertion. The gateway neither opens the host picker
    nor creates a session: no call is made at all. *)
Theorem main_host_inside_term :
  let E := env_of quiet [] (Ok "id_rsa") (Some "ls --host=db1") in
  List.filter (Py.startswith "host=") (Py.split " "%char "ls --host=db1") = [] /\
  Aker.dispatch (environ E) = Raise AssertionError /\
  Aker.main E (80, 24) "alice" [] world0 = (Exc AssertionError, world0).
Proof. vm_compute. repeat split; reflexivity. Qed.

(** ** Observers *)

(** ** Observers *)

Lemma notify_raises (E : env) (pre post : list sniffer) (s : sniffer)
    (e : exn) (h : hook) (w : world) :
  first_failure E pre s e h ->
  for_each (pre ++ s :: post) (fun s' => call E (CallHook s' h)) w
  = (Exc e, record_all (map (fun s' => CallHook s' h) (pre ++ [s])) w).
Proof.
  intros [Hpre Hs].
  apply for_each_call_raises with (f := fun s' => CallHook s' h); [exact Hpre|].
  apply Hs.
Qed.

(** C3, as the specification states it, fails: with observers 0, 1 and 2
    attached and the stop hook of observer 1 raising, [stop_sniffer] ends
    with that exception and observer 2 is never stopped. *)
Lemma stop_hook_failure_not_isolated :
  fst (Client.stop_sniffer noisy [0; 1; 2]%nat world0)
  = Exc (RuntimeError "boom") /\
  calls_to 2%nat (trace (snd (Client.stop_sniffer noisy [0; 1; 2]%nat world0))) = [].
Proof. vm_compute. split; reflexivity. Qed.

(** Bytes typed by the user go to the observers, then to the channel. *)
Example typed_bytes_reach_channel :
  trace (snd (SSHClient.interactive_shell calm [0%nat]
                [typed "ls"; chunk "" (Ok 0%nat)] world0))
  = [Tcgetattr; SetRaw; SetCbreak;
     Select; StdinRead; CallHook 0 (stdin_filter "ls"); ChannelSend "ls";
     Select; ChannelRecv; Tcsetattr cooked].
Proof. vm_compute. reflexivity. Qed.

(** When the stop hook raises at the end of a session started from the
    host picker, the picker is not given its screen back. *)
Example stop_failure_skips_tui_cleanup :
  let run := Aker.init_connection stop_fails (80, 24) "alice" "db1"
               short_session world0 in
  fst run = Exc (RuntimeError "disk full") /\
  last (trace (snd run)) = Some (CallHook 0 stop) /\
  select_ops (fun o => bool_decide (o = TuiStop)) (trace (snd run)) = [].
Proof. vm_compute. repeat split; reflexivity. Qed.

(** C3 (amended): when a hook (stop, resize, channel-data, stdin) of an
    attached observer raises, nothing catches it where the observers are
    called: the observers attached before it have received the call, the
    observers attached after it do not receive it, and the exception leaves
    the loop over the observers.
    - stop: [stop_sniffer] raises, and whatever the caller sequences after
      it does not run;
    - resize: the handler raises after the remote resize;
    - channel data: the chunk is not written to standard output (the
      exception leaves the loop, unless it is a [socket.timeout], which the
      enclosing handler swallows);
    - stdin: the bytes are not sent to the channel. *)
Theorem observer_failure_propagates (E : env) (pre post : list sniffer)
    (s : sniffer) (e : exn) (h : hook) (w : world) :
  first_failure E pre s e h ->
  let sniffers := pre ++ s :: post in
  let called := map (fun s' => CallHook s' h) (pre ++ [s]) in
  (h = stop ->
     Client.stop_sniffer E sniffers w = (Exc e, record_all called w) /\
     forall cleanup : M unit,
       (Client.stop_sniffer E sniffers;; cleanup) w
       = (Exc e, record_all called w)) /\
  (forall reply columns lines,
     Client.get_console_dimensions reply = Ok (columns, lines) ->
     h = sigwinch_hook columns lines ->
     raises E (trace w) (ResizePty columns lines) = None ->
     exists w',
       SSHClient.sigwinch E sniffers reply w = (Exc e, w') /\
       trace w' = trace w ++ ResizePty columns lines :: called) /\
  (forall x t,
     h = channel_filter x -> recv t = Ok x -> String.length x <> 0%nat ->
     SSHClient.on_channel E sniffers t w
     = (match e with SocketTimeout => Ret SSHClient.Next | _ => Exc e end,
        record_all (ChannelRecv :: called) w)) /\
  (forall buf t,
     h = stdin_filter buf -> read t = Ok buf ->
     SSHClient.on_stdin E sniffers t w
     = (Exc e, record_all (StdinRead :: called) w)).
Proof.
  intros Hff sniffers called.
  pose proof (fun w0 => notify_raises E pre post s e h w0 Hff) as Hloop.
  fold sniffers called in Hloop.
  split; [|split; [|split]].
  - intros ->. split; [apply Hloop|].
    intros cleanup. rewrite bind_run.
    unfold Client.stop_sniffer. by rewrite Hloop.
  - intros reply columns lines Hdims -> Hres.
    eexists. unfold SSHClient.sigwinch.
    rewrite bind_run, Hdims. simpl of_result. unfold mret at 1, M_ret at 1.
    rewrite bind_run, call_ok by exact Hres.
    rewrite bind_run. unfold set_pty at 1. rewrite Hloop.
    split; [reflexivity|]. simpl. by rewrite <- app_assoc.
  - intros x t -> Hrecv Hlen.
    unfold SSHClient.on_channel, try_except, answer.
    rewrite bind_run, Hrecv. simpl of_result. unfold mret at 1, M_ret at 1.
    apply Nat.eqb_neq in Hlen. rewrite Hlen.
    rewrite bind_run, Hloop, record_all_cons.
    destruct e; reflexivity.
  - intros buf t -> Hread.
    unfold SSHClient.on_stdin, answer.
    rewrite bind_run, Hread. simpl of_result. unfold mret at 1, M_ret at 1.
    rewrite bind_run, Hloop, record_all_cons. reflexivity.
Qed.

Lemma observer_failure_propagates_witness :
  first_failure noisy [0%nat] 1%nat (RuntimeError "boom") stop /\
  Client.stop_sniffer noisy [0; 1; 2]%nat world0
  = (Exc (RuntimeError "boom"),
     record_all [CallHook 0%nat stop; CallHook 1%nat stop] world0).
Proof.
  assert (H : first_failure noisy [0%nat] 1%nat (RuntimeError "boom") stop).
  { split.
    - intros tr s' [<-|[]]. reflexivity.
    - intros tr. reflexivity. }
  split; [exact H|].
  exact (proj1 (proj1 (observer_failure_propagates noisy [0%nat] [2%nat] 1%nat
                         (RuntimeError "boom") stop world0 H) eq_refl)).
Defined.
